(** * A chained hash map (src/main.js), embedded in Rocq

    The JavaScript classes [Node] and [HashMap] of src/main.js are embedded
    shallowly.

    - A key is a JavaScript string, that is a sequence of UTF-16 code units;
      [charCodeAt] reads one of them.  Keys are lists of code units ([N]),
      and [===] on keys is equality of these lists.
    - A chain of [Node]s linked through [next] is the list of its nodes in
      chain order; the bucket value [null] is the empty chain.
    - JavaScript numbers are taken as exact: [capacity] and [size] are
      integers ([Z]) and [loadFactor] is a rational ([Q]), every finite
      double being one.  The embedding describes the maps whose capacity is
      a positive integer; at capacity 0 the operator [%] yields NaN, which
      the embedding does not represent.
    - Methods mutate [this]; here they take the state and give the new one.
      [set] and [resize] can throw, so they give a [completion].
    - [set] and [resize] call each other.  They are defined with a fuel
      argument first, then shown to return whenever the fuel exceeds the
      number of stored entries, which gives the total functions [set] and
      [resize] together with the equations that read like the source. *)

From Stdlib Require Import ZArith QArith List String Ascii Bool Lia.
Import ListNotations.

Open Scope Z_scope.

(** ** Strings, arrays, completions *)

Definition jsstring := list N.

(** The code units of an ASCII literal. *)
Definition str (s : string) : jsstring :=
  List.map N_of_ascii (list_ascii_of_string s).

(** [a === b] on strings. *)
Fixpoint jsstring_eqb (a b : jsstring) : bool :=
  match a, b with
  | [], [] => true
  | x :: a', y :: b' => N.eqb x y && jsstring_eqb a' b'
  | _, _ => false
  end.

(** [arr[i] = x] for an index inside the array. *)
Fixpoint array_set {A : Type} (arr : list A) (i : nat) (x : A) : list A :=
  match arr, i with
  | [], _ => []
  | _ :: rest, O => x :: rest
  | y :: rest, S i' => y :: array_set rest i' x
  end.

(** A method call either returns, or throws with a message; both leave a
    state behind. *)
Inductive completion (S : Type) : Type :=
| Return (st : S)
| Throw (msg : string) (st : S).

Arguments Return {S} st.
Arguments Throw {S} msg st.

Definition bind {S : Type} (c : completion S) (f : S -> completion S)
  : completion S :=
  match c with
  | Return st => f st
  | Throw msg st => Throw msg st
  end.

Definition state_of {S : Type} (c : completion S) : S :=
  match c with
  | Return st => st
  | Throw _ st => st
  end.

(** The same sequencing for a computation that can also run out of fuel. *)
Definition bind_fuel {S : Type} (c : option (completion S))
  (f : S -> option (completion S)) : option (completion S) :=
  match c with
  | Some (Return st) => f st
  | Some (Throw msg st) => Some (Throw msg st)
  | None => None
  end.

Section HashMapModel.

Variable V : Type.

(** ** class Node, class HashMap *)

Record Node : Type := mkNode { key : jsstring; value : V }.

Record HashMap : Type := mkHashMap {
  loadFactor : Q;
  capacity : Z;
  buckets : list (list Node);
  size : Z
}.

(** [new Array(n).fill(null)] *)
Definition new_array (n : Z) : list (list Node) := repeat [] (Z.to_nat n).

(** [constructor(initialSize = 16, loadFactor = 0.75)] *)
Definition new (initialSize : Z) (lf : Q) : HashMap :=
  {| loadFactor := lf;
     capacity := initialSize;
     buckets := new_array initialSize;
     size := 0 |}.

Definition primeNumber : Z := 31.

(** The loop of [hash]: [chars] are the characters still to be read. *)
Fixpoint hash_loop (cap : Z) (chars : jsstring) (hashCode : Z) : Z :=
  match chars with
  | [] => hashCode
  | c :: rest =>
      hash_loop cap rest ((primeNumber * hashCode + Z.of_N c) mod cap)
  end.

Definition hash (m : HashMap) (k : jsstring) : Z :=
  hash_loop (capacity m) k 0.

(** [arr[index]] read as a chain: outside the array the read gives
    [undefined], which the [while (bucket)] loops treat like [null]. *)
Definition bucket_at (arr : list (list Node)) (index : Z) : list Node :=
  if index <? 0 then [] else nth (Z.to_nat index) arr [].

(** [this.size / this.capacity > this.loadFactor] *)
Definition over_at (lf : Q) (cap sz : Z) : bool :=
  negb (Qle_bool (inject_Z sz / inject_Z cap) lf).

Definition over_threshold (m : HashMap) : bool :=
  over_at (loadFactor m) (capacity m) (size m).

(** The [while] loop of [set] on a non-empty chain, with the final
    [bucket.next = node]. *)
Fixpoint chain_set (bucket : list Node) (k : jsstring) (v : V) : list Node :=
  match bucket with
  | [] => [mkNode k v]
  | n :: next =>
      if jsstring_eqb (key n) k then mkNode (key n) v :: next
      else n :: chain_set next k v
  end.

(** Lines 41-71 of [set]: everything after the load-factor check. *)
Definition set_store (m : HashMap) (k : jsstring) (v : V)
  : completion HashMap :=
  let index := hash m k in
  let bucket := bucket_at (buckets m) index in
  let node := mkNode k v in
  let m1 := {| loadFactor := loadFactor m; capacity := capacity m;
               buckets := buckets m; size := size m + 1 |} in
  if (index <? 0) || (Z.of_nat (List.length (buckets m1)) <=? index)
  then Throw "Trying to access index out of bound" m1
  else
    match bucket with
    | [] =>
        Return {| loadFactor := loadFactor m1; capacity := capacity m1;
                  buckets := array_set (buckets m1) (Z.to_nat index) [node];
                  size := size m1 |}
    | _ :: _ =>
        Return {| loadFactor := loadFactor m1; capacity := capacity m1;
                  buckets := array_set (buckets m1) (Z.to_nat index)
                               (chain_set bucket k v);
                  size := size m1 |}
    end.

(** [entries()]: buckets in array order, each chain in chain order. *)
Definition entries (m : HashMap) : list Node := List.concat (buckets m).

Definition keys (m : HashMap) : list jsstring := List.map key (entries m).

Definition values (m : HashMap) : list V := List.map value (entries m).

(** The loop of [resize] over the nodes [es] of the old chains, given the
    [set] it calls back. *)
Definition refill
  (set_ : HashMap -> jsstring -> V -> option (completion HashMap))
  (es : list Node) (acc : option (completion HashMap))
  : option (completion HashMap) :=
  fold_left (fun acc n => bind_fuel acc (fun st => set_ st (key n) (value n)))
            es acc.

Definition resize_with
  (set_ : HashMap -> jsstring -> V -> option (completion HashMap))
  (m : HashMap) (cap : Z) : option (completion HashMap) :=
  let oldBuckets := buckets m in
  let m0 := {| loadFactor := loadFactor m; capacity := cap;
               buckets := new_array cap; size := 0 |} in
  refill set_ (List.concat oldBuckets) (Some (Return m0)).

Fixpoint set_fuel (fuel : nat) (m : HashMap) (k : jsstring) (v : V)
  : option (completion HashMap) :=
  match fuel with
  | O => None
  | S fuel' =>
      bind_fuel
        (if over_threshold m
         then resize_with (set_fuel fuel') m (capacity m * 2)
         else Some (Return m))
        (fun m1 => Some (set_store m1 k v))
  end.

Definition resize_fuel (fuel : nat) (m : HashMap) (cap : Z)
  : option (completion HashMap) :=
  resize_with (set_fuel fuel) m cap.

(** The number of stored nodes. *)
Definition count (m : HashMap) : nat := List.length (entries m).

(** Fuel above the number of stored entries is always enough
    ([set_fuel_enough], [resize_fuel_enough] below). *)
Definition set (m : HashMap) (k : jsstring) (v : V) : completion HashMap :=
  match set_fuel (S (count m)) m k v with
  | Some c => c
  | None => Throw "out of fuel" m
  end.

Definition resize (m : HashMap) (cap : Z) : completion HashMap :=
  match resize_fuel (count m) m cap with
  | Some c => c
  | None => Throw "out of fuel" m
  end.

(** The loop of [get]. *)
Fixpoint chain_get (bucket : list Node) (k : jsstring) : option V :=
  match bucket with
  | [] => None
  | n :: next =>
      if jsstring_eqb (key n) k then Some (value n) else chain_get next k
  end.

(** [get]: [None] is [undefined]. *)
Definition get (m : HashMap) (k : jsstring) : option V :=
  chain_get (bucket_at (buckets m) (hash m k)) k.

(** The loop of [has]. *)
Fixpoint chain_has (bucket : list Node) (k : jsstring) : bool :=
  match bucket with
  | [] => false
  | n :: next => if jsstring_eqb (key n) k then true else chain_has next k
  end.

Definition has (m : HashMap) (k : jsstring) : bool :=
  chain_has (bucket_at (buckets m) (hash m k)) k.

(** The loop of [remove]: [Some] of the chain with the first node of key [k]
    unlinked, or [None] when the chain ends without a match. *)
Fixpoint chain_remove (bucket : list Node) (k : jsstring)
  : option (list Node) :=
  match bucket with
  | [] => None
  | n :: next =>
      if jsstring_eqb (key n) k then Some next
      else option_map (cons n) (chain_remove next k)
  end.

Definition remove (m : HashMap) (k : jsstring) : bool * HashMap :=
  let index := hash m k in
  match chain_remove (bucket_at (buckets m) index) k with
  | Some bucket' =>
      (true, {| loadFactor := loadFactor m; capacity := capacity m;
                buckets := array_set (buckets m) (Z.to_nat index) bucket';
                size := size m - 1 |})
  | None => (false, m)
  end.

Definition length (m : HashMap) : Z := size m.

Definition clear (m : HashMap) : HashMap :=
  {| loadFactor := loadFactor m; capacity := capacity m;
     buckets := new_array (capacity m); size := 0 |}.

(** [set] called on each node of a list in turn, as the loop of [resize] and
    a script of [set] calls do; a throw ends the run. *)
Definition set_each (acc : completion HashMap) (kvs : list Node)
  : completion HashMap :=
  fold_left (fun acc n => bind acc (fun st => set st (key n) (value n)))
            kvs acc.

Definition set_all (m : HashMap) (kvs : list Node) : completion HashMap :=
  set_each (Return m) kvs.

(** The representation invariant: a positive capacity, one bucket per
    index below it, every node in the bucket of its hash, and no key twice
    in a chain. *)
Definition wf (m : HashMap) : Prop :=
  0 < capacity m /\
  Z.of_nat (List.length (buckets m)) = capacity m /\
  (forall i n, In n (bucket_at (buckets m) i) -> hash m (key n) = i) /\
  (forall i, NoDup (List.map key (bucket_at (buckets m) i))).

(** What a [set] has to do for the loop of [resize] to rebuild the map. *)
Definition set_ok
  (set_ : HashMap -> jsstring -> V -> option (completion HashMap)) : Prop :=
  forall m k v r,
    wf m -> set_ m k v = Some r ->
    exists m',
      r = Return m' /\ wf m' /\ loadFactor m' = loadFactor m /\
      get m' k = Some v /\
      (forall k', k' <> k -> get m' k' = get m k').

(** What a [set] does to the capacity, to the number of nodes and to
    [size]. *)
Definition set_counts
  (set_ : HashMap -> jsstring -> V -> option (completion HashMap)) : Prop :=
  forall m k v r,
    wf m -> set_ m k v = Some r ->
    exists m',
      r = Return m' /\ capacity m <= capacity m' /\
      count m' = (if has m k then count m else S (count m)) /\
      size m' =
      (if over_threshold m then Z.of_nat (count m) else size m) + 1.


(** The inner loop of [keys()], [values()] and [entries()]: walk the chain
    and push [f] of each node on the array built so far. *)
Fixpoint chain_push {B : Type} (f : Node -> B) (bucket : list Node)
  (acc : list B) : list B :=
  match bucket with
  | [] => acc
  | n :: next => chain_push f next (acc ++ [f n])
  end.

(** [keys()], as the source has it: [for (let bucket of this.buckets)]
    around the inner loop, pushing [bucket.key]. *)
Definition keys_loop (m : HashMap) : list jsstring :=
  fold_left (fun keys bucket => chain_push key bucket keys) (buckets m) [].

(** [values()], pushing [bucket.value]. *)
Definition values_loop (m : HashMap) : list V :=
  fold_left (fun values bucket => chain_push value bucket values)
            (buckets m) [].

(** [entries()], pushing the pair [[bucket.key, bucket.value]]. *)
Definition entries_loop (m : HashMap) : list (jsstring * V) :=
  fold_left (fun entries bucket =>
               chain_push (fun n => (key n, value n)) bucket entries)
            (buckets m) [].


(** The bookkeeping the bounds check of [set] relies on: one bucket per
    index below a positive capacity. *)
Definition shaped (m : HashMap) : Prop :=
  0 < capacity m /\ Z.of_nat (List.length (buckets m)) = capacity m.

(** The keys of a run of [set] calls, each once (the first occurrence of a
    key that comes again is dropped). *)
Fixpoint distinct_keys (ks : list jsstring) : list jsstring :=
  match ks with
  | [] => []
  | k :: rest =>
      if existsb (jsstring_eqb k) rest then distinct_keys rest
      else k :: distinct_keys rest
  end.


(** The states a program can reach through the public methods, from a map
    constructed with a positive capacity. *)
Inductive reachable : HashMap -> Prop :=
| reach_new (initialSize : Z) (lf : Q) :
    0 < initialSize -> reachable (new initialSize lf)
| reach_set (m m' : HashMap) (k : jsstring) (v : V) :
    reachable m -> set m k v = Return m' -> reachable m'
| reach_remove (m : HashMap) (k : jsstring) :
    reachable m -> reachable (snd (remove m k))
| reach_clear (m : HashMap) :
    reachable m -> reachable (clear m)
| reach_resize (m m' : HashMap) (cap : Z) :
    reachable m -> 0 < cap -> resize m cap = Return m' -> reachable m'.

(** The hash as the specification words it: a left fold from 0. *)
Definition hash_fold (cap : Z) (k : jsstring) : Z :=
  fold_left (fun index characterCode =>
               (31 * index + Z.of_N characterCode) mod cap) k 0.

(** ** Strings and arrays *)

Lemma jsstring_eqb_eq (a b : jsstring) : jsstring_eqb a b = true <-> a = b.
Proof.
  revert b; induction a as [|x a IH]; intros [|y b]; simpl;
    try (split; [discriminate | discriminate]); try tauto.
  rewrite andb_true_iff, N.eqb_eq, IH.
  split; [intros [-> ->]; reflexivity | intros H; inversion H; auto].
Qed.

Lemma jsstring_eqb_refl (a : jsstring) : jsstring_eqb a a = true.
Proof. apply jsstring_eqb_eq; reflexivity. Qed.

Lemma jsstring_eqb_neq (a b : jsstring) : jsstring_eqb a b = false <-> a <> b.
Proof.
  rewrite <- jsstring_eqb_eq. destruct (jsstring_eqb a b); split; congruence.
Qed.

Lemma array_set_length {A : Type} (arr : list A) (i : nat) (x : A) :
  List.length (array_set arr i x) = List.length arr.
Proof.
  revert i; induction arr as [|y arr IH]; intros [|i]; simpl; auto.
Qed.

Lemma nth_array_set_same {A : Type} (arr : list A) (i : nat) (x d : A) :
  (i < List.length arr)%nat -> nth i (array_set arr i x) d = x.
Proof.
  revert i; induction arr as [|y arr IH]; intros [|i]; simpl; intros H;
    try lia; auto.
  apply IH; lia.
Qed.

Lemma nth_array_set_other {A : Type} (arr : list A) (i j : nat) (x d : A) :
  i <> j -> nth j (array_set arr i x) d = nth j arr d.
Proof.
  revert i j; induction arr as [|y arr IH]; intros [|i] [|j]; simpl;
    intros H; try congruence; auto.
Qed.

Lemma array_set_nth {A : Type} (arr : list A) (i : nat) (d : A) :
  array_set arr i (nth i arr d) = arr.
Proof.
  revert i; induction arr as [|y arr IH]; intros [|i]; simpl; auto.
  now rewrite IH.
Qed.

Lemma concat_array_set_length {A : Type} (arr : list (list A)) (i : nat)
  (x : list A) :
  (i < List.length arr)%nat ->
  (List.length (List.concat (array_set arr i x)) + List.length (nth i arr [])
   = List.length (List.concat arr) + List.length x)%nat.
Proof.
  revert i; induction arr as [|y arr IH]; intros [|i]; simpl; intros H;
    try lia.
  - rewrite !length_app; lia.
  - rewrite !length_app. specialize (IH i ltac:(lia)). lia.
Qed.

Lemma In_array_set {A : Type} (arr : list A) (i : nat) (x y : A) :
  In y (array_set arr i x) -> y = x \/ In y arr.
Proof.
  revert i; induction arr as [|z arr IH]; intros [|i]; simpl; try tauto.
  - intros [H|H]; auto.
  - intros [H|H]; auto. destruct (IH _ H); auto.
Qed.

Lemma concat_new_array (n : Z) : List.concat (new_array n) = [].
Proof.
  unfold new_array. induction (Z.to_nat n); simpl; auto.
Qed.

Lemma new_array_length (n : Z) : List.length (new_array n) = Z.to_nat n.
Proof. apply repeat_length. Qed.

Lemma bucket_at_new_array (n index : Z) : bucket_at (new_array n) index = [].
Proof.
  unfold bucket_at, new_array. destruct (index <? 0); auto.
  generalize (Z.to_nat index). induction (Z.to_nat n); intros [|i]; simpl; auto.
Qed.

(** ** hash *)

Lemma hash_loop_range (cap : Z) (k : jsstring) (h : Z) :
  0 < cap -> 0 <= h < cap -> 0 <= hash_loop cap k h < cap.
Proof.
  intros Hcap; revert h; induction k as [|c k IH]; simpl; intros h Hh; auto.
  apply IH. apply Z.mod_pos_bound; assumption.
Qed.

Lemma hash_range (m : HashMap) (k : jsstring) :
  0 < capacity m -> 0 <= hash m k < capacity m.
Proof. intros H; apply hash_loop_range; lia. Qed.

(** ** set_store *)

Lemma chain_set_nil (k : jsstring) (v : V) : chain_set [] k v = [mkNode k v].
Proof. reflexivity. Qed.

(** With the index inside the array, both branches of [set_store] write the
    chain that the loop computes. *)
Lemma set_store_in_range (m : HashMap) (k : jsstring) (v : V) :
  0 <= hash m k < Z.of_nat (List.length (buckets m)) ->
  set_store m k v =
  Return {| loadFactor := loadFactor m; capacity := capacity m;
            buckets := array_set (buckets m) (Z.to_nat (hash m k))
                         (chain_set (bucket_at (buckets m) (hash m k)) k v);
            size := size m + 1 |}.
Proof.
  intros H. unfold set_store. cbv zeta. simpl buckets.
  replace (hash m k <? 0) with false by (symmetry; apply Z.ltb_ge; lia).
  replace (Z.of_nat (List.length (buckets m)) <=? hash m k) with false
    by (symmetry; apply Z.leb_gt; lia).
  simpl orb. cbv iota.
  destruct (bucket_at (buckets m) (hash m k)); reflexivity.
Qed.

Lemma set_store_out_of_range (m : HashMap) (k : jsstring) (v : V) :
  ~ 0 <= hash m k < Z.of_nat (List.length (buckets m)) ->
  set_store m k v =
  Throw "Trying to access index out of bound"
        {| loadFactor := loadFactor m; capacity := capacity m;
           buckets := buckets m; size := size m + 1 |}.
Proof.
  intros H. unfold set_store. cbv zeta. simpl buckets.
  destruct (hash m k <? 0) eqn:E1; [reflexivity|].
  destruct (Z.of_nat (List.length (buckets m)) <=? hash m k) eqn:E2;
    [reflexivity|].
  apply Z.ltb_ge in E1. apply Z.leb_gt in E2. lia.
Qed.

Lemma chain_set_length (c : list Node) (k : jsstring) (v : V) :
  (List.length (chain_set c k v) <= S (List.length c))%nat.
Proof.
  induction c as [|n c IH]; simpl; auto.
  destruct (jsstring_eqb (key n) k); simpl; lia.
Qed.

Lemma bucket_at_nth (arr : list (list Node)) (index : Z) :
  0 <= index -> bucket_at arr index = nth (Z.to_nat index) arr [].
Proof.
  intros H. unfold bucket_at.
  replace (index <? 0) with false by (symmetry; apply Z.ltb_ge; lia).
  reflexivity.
Qed.

Lemma set_store_count (m : HashMap) (k : jsstring) (v : V) :
  (List.length (entries (state_of (set_store m k v)))
   <= List.length (entries m) + 1)%nat.
Proof.
  destruct (Z_lt_dec (hash m k) 0) as [Hlt|Hge].
  { rewrite set_store_out_of_range by lia. unfold entries; simpl. lia. }
  destruct (Z_lt_dec (hash m k) (Z.of_nat (List.length (buckets m))))
    as [Hin|Hout].
  2:{ rewrite set_store_out_of_range by lia. unfold entries; simpl. lia. }
  rewrite set_store_in_range by lia. unfold entries; simpl.
  pose proof (concat_array_set_length (buckets m) (Z.to_nat (hash m k))
                (chain_set (bucket_at (buckets m) (hash m k)) k v)
                ltac:(lia)) as E.
  pose proof (chain_set_length (bucket_at (buckets m) (hash m k)) k v) as L.
  rewrite bucket_at_nth in * by lia. lia.
Qed.

(** ** [set] and [resize] return

    A call of [set] on a map with [c] entries may call [resize], whose loop
    calls [set] on maps holding fewer than [c] entries. *)

Lemma resize_with_refill set_ (m : HashMap) (cap : Z) :
  resize_with set_ m cap =
  refill set_ (entries m)
         (Some (Return {| loadFactor := loadFactor m; capacity := cap;
                          buckets := new_array cap; size := 0 |})).
Proof. reflexivity. Qed.

Lemma refill_cons set_ (n : Node) (es : list Node) acc :
  refill set_ (n :: es) acc =
  refill set_ es (bind_fuel acc (fun st => set_ st (key n) (value n))).
Proof. reflexivity. Qed.

Lemma refill_none set_ (es : list Node) : refill set_ es None = None.
Proof. induction es; simpl; auto. Qed.

Lemma refill_throw set_ (es : list Node) (msg : string) (st : HashMap) :
  refill set_ es (Some (Throw msg st)) = Some (Throw msg st).
Proof. induction es; simpl; auto. Qed.

Lemma count_new_array (lf : Q) (cap sz : Z) :
  count {| loadFactor := lf; capacity := cap; buckets := new_array cap;
           size := sz |} = 0%nat.
Proof. unfold count, entries; simpl. now rewrite concat_new_array. Qed.

Lemma refill_count set_ :
  (forall st k v r, set_ st k v = Some r ->
                    (count (state_of r) <= count st + 1)%nat) ->
  forall es r0 r,
    refill set_ es (Some r0) = Some r ->
    (count (state_of r) <= count (state_of r0) + List.length es)%nat.
Proof.
  intros Hset; induction es as [|n es IH]; intros r0 r H.
  - simpl in H. inversion H; subst. lia.
  - rewrite refill_cons in H. destruct r0 as [st|msg st]; simpl bind_fuel in H.
    + destruct (set_ st (key n) (value n)) as [r1|] eqn:E.
      * apply IH in H. apply Hset in E. simpl in *. lia.
      * rewrite refill_none in H. discriminate.
    + apply IH in H. simpl in *. lia.
Qed.

Lemma set_fuel_count (fuel : nat) :
  forall m k v r, set_fuel fuel m k v = Some r ->
                  (count (state_of r) <= count m + 1)%nat.
Proof.
  induction fuel as [|fuel IH]; intros m k v r H; simpl in H; [discriminate|].
  destruct (over_threshold m).
  - destruct (resize_with (set_fuel fuel) m (capacity m * 2)) as [r1|] eqn:E;
      [|discriminate].
    rewrite resize_with_refill in E. apply (refill_count _ IH) in E.
    simpl state_of in E. rewrite count_new_array in E. fold (count m) in E.
    destruct r1 as [m1|msg m1]; simpl in H; inversion H; subst.
    + pose proof (set_store_count m1 k v). unfold count in *. simpl in *. lia.
    + simpl in *. lia.
  - simpl in H. inversion H; subst. apply set_store_count.
Qed.

Lemma refill_returns set_ (bound : nat) :
  (forall st k v r, set_ st k v = Some r ->
                    (count (state_of r) <= count st + 1)%nat) ->
  (forall st k v, (count st < bound)%nat -> set_ st k v <> None) ->
  forall es r0,
    (count (state_of r0) + List.length es <= bound)%nat ->
    refill set_ es (Some r0) <> None.
Proof.
  intros Hcount Hsome; induction es as [|n es IH]; intros r0 Hb.
  - simpl. discriminate.
  - rewrite refill_cons. destruct r0 as [st|msg st]; simpl bind_fuel.
    + simpl in Hb.
      destruct (set_ st (key n) (value n)) as [r1|] eqn:E.
      * apply IH. apply Hcount in E. lia.
      * exfalso. apply (Hsome st (key n) (value n)); [lia|assumption].
    + rewrite refill_throw. discriminate.
Qed.

Lemma set_fuel_returns (fuel : nat) :
  forall m k v, (count m < fuel)%nat -> set_fuel fuel m k v <> None.
Proof.
  induction fuel as [|fuel IH]; intros m k v Hc; [lia|].
  simpl. destruct (over_threshold m); [|simpl; discriminate].
  destruct (resize_with (set_fuel fuel) m (capacity m * 2)) as [r1|] eqn:E.
  - destruct r1; simpl; discriminate.
  - exfalso. rewrite resize_with_refill in E. revert E.
    apply (refill_returns _ fuel (set_fuel_count fuel) IH).
    simpl. rewrite count_new_array. fold (count m). lia.
Qed.

Lemma refill_ext set1 set2 :
  (forall st k v r, set1 st k v = Some r -> set2 st k v = Some r) ->
  forall es acc r, refill set1 es acc = Some r -> refill set2 es acc = Some r.
Proof.
  intros Hext; induction es as [|n es IH]; intros acc r H; [assumption|].
  rewrite refill_cons in *. destruct acc as [[st|msg st]|]; simpl bind_fuel in *.
  - destruct (set1 st (key n) (value n)) as [r1|] eqn:E.
    + rewrite (Hext _ _ _ _ E). auto.
    + rewrite refill_none in H. discriminate.
  - auto.
  - rewrite refill_none in H. discriminate.
Qed.

Lemma set_fuel_mono (fuel : nat) :
  forall fuel' m k v r,
    (fuel <= fuel')%nat ->
    set_fuel fuel m k v = Some r -> set_fuel fuel' m k v = Some r.
Proof.
  induction fuel as [|fuel IH]; intros fuel' m k v r Hle H;
    [discriminate|].
  destruct fuel' as [|fuel']; [lia|].
  simpl in *. destruct (over_threshold m); [|assumption].
  destruct (resize_with (set_fuel fuel) m (capacity m * 2)) as [r1|] eqn:E;
    [|discriminate].
  rewrite resize_with_refill in *.
  rewrite (refill_ext (set_fuel fuel) (set_fuel fuel')
             (fun st k v r => IH fuel' st k v r ltac:(lia)) _ _ _ E).
  assumption.
Qed.

(** Any fuel above the number of entries computes [set]. *)
Lemma set_fuel_enough (fuel : nat) (m : HashMap) (k : jsstring) (v : V) :
  (count m < fuel)%nat -> set_fuel fuel m k v = Some (set m k v).
Proof.
  intros Hc. unfold set.
  destruct (set_fuel (S (count m)) m k v) as [r|] eqn:E.
  - apply (set_fuel_mono _ fuel) in E; [assumption|lia].
  - exfalso. revert E. apply set_fuel_returns. lia.
Qed.

Lemma set_count (m : HashMap) (k : jsstring) (v : V) :
  (count (state_of (set m k v)) <= count m + 1)%nat.
Proof.
  apply (set_fuel_count (S (count m)) m k v). apply set_fuel_enough. lia.
Qed.

Lemma resize_fuel_returns (m : HashMap) (cap : Z) :
  resize_fuel (count m) m cap <> None.
Proof.
  unfold resize_fuel. rewrite resize_with_refill.
  apply (refill_returns _ (count m) (set_fuel_count (count m))
           (set_fuel_returns (count m))).
  simpl. rewrite count_new_array. unfold count. lia.
Qed.

(** [set], as the source has it: the load-factor check and [resize], then
    the store. *)
Lemma set_eq (m : HashMap) (k : jsstring) (v : V) :
  set m k v =
  bind (if over_threshold m then resize m (capacity m * 2) else Return m)
       (fun m1 => set_store m1 k v).
Proof.
  unfold set. simpl set_fuel. destruct (over_threshold m); [|reflexivity].
  unfold resize. pose proof (resize_fuel_returns m (capacity m * 2)) as R.
  unfold resize_fuel in *.
  destruct (resize_with (set_fuel (count m)) m (capacity m * 2))
    as [[m1|msg m1]|]; [reflexivity|reflexivity|congruence].
Qed.

Lemma set_each_throw (msg : string) (st : HashMap) (es : list Node) :
  set_each (Throw msg st) es = Throw msg st.
Proof. induction es; simpl; auto. Qed.

Lemma set_each_cons (acc : completion HashMap) (n : Node) (es : list Node) :
  set_each acc (n :: es) =
  set_each (bind acc (fun st => set st (key n) (value n))) es.
Proof. reflexivity. Qed.

Lemma refill_set_each (fuel : nat) :
  forall es r0,
    (count (state_of r0) + List.length es <= fuel)%nat ->
    refill (set_fuel fuel) es (Some r0) = Some (set_each r0 es).
Proof.
  induction es as [|n es IH]; intros r0 Hb; [reflexivity|].
  rewrite refill_cons, set_each_cons. destruct r0 as [st|msg st]; simpl in *.
  - rewrite set_fuel_enough by lia. apply IH.
    pose proof (set_count st (key n) (value n)). lia.
  - rewrite refill_throw, set_each_throw. reflexivity.
Qed.

(** [resize], as the source has it: the new capacity, a size of 0, a fresh
    array, and [set] on every node of the old chains. *)
Lemma resize_eq (m : HashMap) (cap : Z) :
  resize m cap =
  set_all {| loadFactor := loadFactor m; capacity := cap;
             buckets := new_array cap; size := 0 |}
          (entries m).
Proof.
  unfold resize, resize_fuel. rewrite resize_with_refill.
  rewrite refill_set_each; [reflexivity|].
  simpl. rewrite count_new_array. unfold count. lia.
Qed.

(** Any fuel from the number of entries on computes [resize]. *)
Lemma resize_fuel_enough (fuel : nat) (m : HashMap) (cap : Z) :
  (count m <= fuel)%nat -> resize_fuel fuel m cap = Some (resize m cap).
Proof.
  intros Hc. unfold resize_fuel. rewrite resize_with_refill, resize_eq.
  apply refill_set_each. simpl. rewrite count_new_array. unfold count in *.
  lia.
Qed.


(** ** Chains *)

Lemma chain_has_In (c : list Node) (k : jsstring) :
  chain_has c k = true <-> In k (List.map key c).
Proof.
  induction c as [|n c IH]; simpl; [split; [discriminate|tauto]|].
  destruct (jsstring_eqb (key n) k) eqn:E.
  - apply jsstring_eqb_eq in E. tauto.
  - apply jsstring_eqb_neq in E. rewrite IH. tauto.
Qed.

Lemma chain_has_get (c : list Node) (k : jsstring) :
  chain_has c k = match chain_get c k with Some _ => true | None => false end.
Proof.
  induction c as [|n c IH]; simpl; auto.
  destruct (jsstring_eqb (key n) k); auto.
Qed.

Lemma chain_get_In (c : list Node) (k : jsstring) (v : V) :
  chain_get c k = Some v -> In (mkNode k v) c.
Proof.
  induction c as [|n c IH]; simpl; [discriminate|].
  destruct (jsstring_eqb (key n) k) eqn:E.
  - apply jsstring_eqb_eq in E. intros H; inversion H; subst.
    left. destruct n; reflexivity.
  - auto.
Qed.

Lemma chain_get_None (c : list Node) (k : jsstring) :
  chain_get c k = None <-> ~ In k (List.map key c).
Proof.
  rewrite <- chain_has_In, chain_has_get.
  destruct (chain_get c k); split; congruence.
Qed.

Lemma chain_get_NoDup (c : list Node) (n : Node) :
  NoDup (List.map key c) -> In n c -> chain_get c (key n) = Some (value n).
Proof.
  induction c as [|n0 c IH]; simpl; [tauto|].
  intros Hnd [->|Hin].
  - now rewrite jsstring_eqb_refl.
  - inversion Hnd as [|? ? Hnot Hnd']; subst.
    destruct (jsstring_eqb (key n0) (key n)) eqn:E; [|auto].
    apply jsstring_eqb_eq in E. exfalso. apply Hnot. rewrite E.
    now apply in_map.
Qed.

Lemma chain_get_app (a b : list Node) (k : jsstring) :
  chain_get (a ++ b) k =
  match chain_get a k with Some v => Some v | None => chain_get b k end.
Proof.
  induction a as [|n a IH]; simpl; auto.
  destruct (jsstring_eqb (key n) k); auto.
Qed.

Lemma chain_get_chain_set_same (c : list Node) (k : jsstring) (v : V) :
  chain_get (chain_set c k v) k = Some v.
Proof.
  induction c as [|n c IH]; simpl.
  - now rewrite jsstring_eqb_refl.
  - destruct (jsstring_eqb (key n) k) eqn:E; simpl; rewrite E; auto.
Qed.

Lemma chain_get_chain_set_other (c : list Node) (k k' : jsstring) (v : V) :
  k' <> k -> chain_get (chain_set c k v) k' = chain_get c k'.
Proof.
  intros Hne. induction c as [|n c IH]; simpl.
  - replace (jsstring_eqb k k') with false; auto.
    symmetry. apply jsstring_eqb_neq. congruence.
  - destruct (jsstring_eqb (key n) k) eqn:E; simpl.
    + apply jsstring_eqb_eq in E. rewrite E.
      replace (jsstring_eqb k k') with false; auto.
      symmetry. apply jsstring_eqb_neq. congruence.
    + rewrite IH. reflexivity.
Qed.

(** The keys of a chain after [chain_set]: unchanged when [k] is there,
    with [k] appended otherwise. *)
Lemma chain_set_keys (c : list Node) (k : jsstring) (v : V) :
  List.map key (chain_set c k v) =
  if chain_has c k then List.map key c else List.map key c ++ [k].
Proof.
  induction c as [|n c IH]; simpl; auto.
  destruct (jsstring_eqb (key n) k); simpl; auto.
  rewrite IH. destruct (chain_has c k); reflexivity.
Qed.

Lemma chain_set_NoDup (c : list Node) (k : jsstring) (v : V) :
  NoDup (List.map key c) -> NoDup (List.map key (chain_set c k v)).
Proof.
  intros Hnd. rewrite chain_set_keys. destruct (chain_has c k) eqn:E; auto.
  assert (~ In k (List.map key c)) as Hnot
    by (rewrite <- chain_has_In; congruence).
  clear E. induction (List.map key c) as [|x l IH]; simpl.
  - constructor; [intros []|constructor].
  - inversion Hnd as [|? ? Hx Hl]; subst. constructor.
    + rewrite in_app_iff. simpl in *. intros [H|[H|[]]]; auto.
    + apply IH; auto. simpl in Hnot. tauto.
Qed.

Lemma chain_set_In (c : list Node) (k : jsstring) (v : V) (n : Node) :
  In n (chain_set c k v) -> key n = k \/ In n c.
Proof.
  induction c as [|n0 c IH]; simpl.
  - intros [<-|[]]; auto.
  - destruct (jsstring_eqb (key n0) k) eqn:E; simpl.
    + apply jsstring_eqb_eq in E. intros [<-|H]; auto.
    + intros [<-|H]; auto. destruct (IH H); auto.
Qed.

(** Storing the value a key already has leaves the chain as it is. *)
Lemma chain_set_idem (c : list Node) (k : jsstring) (v : V) :
  chain_get c k = Some v -> chain_set c k v = c.
Proof.
  induction c as [|n c IH]; simpl; [discriminate|].
  destruct (jsstring_eqb (key n) k) eqn:E.
  - intros H; inversion H; subst. destruct n; reflexivity.
  - intros H. now rewrite IH.
Qed.

(** ** Buckets *)

Lemma bucket_at_array_set_same (arr : list (list Node)) (i : Z)
  (x : list Node) :
  0 <= i < Z.of_nat (List.length arr) ->
  bucket_at (array_set arr (Z.to_nat i) x) i = x.
Proof.
  intros H. rewrite bucket_at_nth by lia. apply nth_array_set_same. lia.
Qed.

Lemma bucket_at_array_set_other (arr : list (list Node)) (i j : Z)
  (x : list Node) :
  0 <= i -> i <> j ->
  bucket_at (array_set arr (Z.to_nat i) x) j = bucket_at arr j.
Proof.
  intros Hi Hne. unfold bucket_at. destruct (j <? 0) eqn:E; auto.
  apply Z.ltb_ge in E. apply nth_array_set_other. lia.
Qed.

Lemma bucket_at_out (arr : list (list Node)) (i : Z) :
  ~ 0 <= i < Z.of_nat (List.length arr) -> bucket_at arr i = [].
Proof.
  intros H. unfold bucket_at. destruct (i <? 0) eqn:E; auto.
  apply Z.ltb_ge in E. apply nth_overflow. lia.
Qed.

Lemma In_entries (m : HashMap) (n : Node) :
  In n (entries m) <-> exists i, In n (bucket_at (buckets m) i).
Proof.
  unfold entries. rewrite in_concat. split.
  - intros (c & Hc & Hn). destruct (In_nth _ _ [] Hc) as (i & Hi & E).
    exists (Z.of_nat i). rewrite bucket_at_nth by lia.
    rewrite Nat2Z.id, E. assumption.
  - intros (i & Hn). exists (bucket_at (buckets m) i). split; auto.
    destruct (Z_lt_dec i 0); [rewrite bucket_at_out in Hn by lia; destruct Hn|].
    destruct (Z_lt_dec i (Z.of_nat (List.length (buckets m))));
      [|rewrite bucket_at_out in Hn by lia; destruct Hn].
    rewrite bucket_at_nth by lia. apply nth_In. lia.
Qed.

(** ** The invariant and [get] *)

Lemma has_get (m : HashMap) (k : jsstring) :
  has m k = match get m k with Some _ => true | None => false end.
Proof. apply chain_has_get. Qed.

Lemma get_In_entries (m : HashMap) (k : jsstring) (v : V) :
  get m k = Some v -> In (mkNode k v) (entries m).
Proof.
  intros H. apply In_entries. exists (hash m k). now apply chain_get_In.
Qed.

Lemma In_entries_get (m : HashMap) (n : Node) :
  wf m -> In n (entries m) -> get m (key n) = Some (value n).
Proof.
  intros (_ & _ & Hhash & Hnd) Hn. apply In_entries in Hn as (i & Hi).
  unfold get. rewrite (Hhash _ _ Hi). apply chain_get_NoDup; auto.
Qed.

(** On a well-formed map, [get] is the lookup in [entries()], whichever
    way the list is read. *)
Lemma get_entries_rev (m : HashMap) (k : jsstring) :
  wf m -> chain_get (rev (entries m)) k = get m k.
Proof.
  intros Hwf. destruct (chain_get (rev (entries m)) k) as [v|] eqn:E.
  - apply chain_get_In, in_rev in E.
    apply (In_entries_get _ _ Hwf) in E. simpl in E. now rewrite E.
  - destruct (get m k) as [v|] eqn:G; auto.
    apply get_In_entries in G. apply chain_get_None in E. exfalso. apply E.
    apply (in_map key) in G. simpl in G. rewrite map_rev, <- in_rev. exact G.
Qed.

(** ** [set] on a well-formed map *)

Lemma wf_new (initialSize : Z) (lf : Q) : 0 < initialSize -> wf (new initialSize lf).
Proof.
  intros H. unfold wf, new; simpl. rewrite new_array_length.
  repeat split; try lia.
  - intros i n. rewrite bucket_at_new_array. intros [].
  - intros i. rewrite bucket_at_new_array. constructor.
Qed.

Lemma wf_in_range (m : HashMap) (k : jsstring) :
  wf m -> 0 <= hash m k < Z.of_nat (List.length (buckets m)).
Proof.
  intros (Hcap & Hlen & _). rewrite Hlen. now apply hash_range.
Qed.

Lemma set_store_spec (m : HashMap) (k : jsstring) (v : V) :
  wf m ->
  exists m',
    set_store m k v = Return m' /\ wf m' /\
    loadFactor m' = loadFactor m /\ capacity m' = capacity m /\
    size m' = size m + 1 /\
    get m' k = Some v /\
    (forall k', k' <> k -> get m' k' = get m k').
Proof.
  intros Hwf. pose proof (wf_in_range m k Hwf) as Hr.
  destruct Hwf as (Hcap & Hlen & Hhash & Hnd).
  rewrite set_store_in_range by assumption.
  eexists; split; [reflexivity|].
  split; [|split; [reflexivity|split; [reflexivity|split; [reflexivity|]]]].
  - unfold wf, hash; simpl. rewrite array_set_length.
    split; [assumption|split; [assumption|split]].
    + intros i n Hin.
      destruct (Z.eq_dec (hash_loop (capacity m) k 0) i) as [E|E].
      * subst i. rewrite bucket_at_array_set_same in Hin by assumption.
        apply chain_set_In in Hin as [->|Hin]; [reflexivity|].
        now apply Hhash in Hin.
      * rewrite bucket_at_array_set_other in Hin by (assumption || apply Hr).
        now apply Hhash in Hin.
    + intros i.
      destruct (Z.eq_dec (hash_loop (capacity m) k 0) i) as [E|E].
      * subst i. rewrite bucket_at_array_set_same by assumption.
        apply chain_set_NoDup, Hnd.
      * rewrite bucket_at_array_set_other by (assumption || apply Hr).
        apply Hnd.
  - unfold get, hash; simpl. fold (hash m k). split.
    + rewrite bucket_at_array_set_same by assumption.
      apply chain_get_chain_set_same.
    + intros k' Hne. fold (hash m k').
      destruct (Z.eq_dec (hash m k) (hash m k')) as [E|E].
      * rewrite <- E. rewrite bucket_at_array_set_same by assumption.
        now apply chain_get_chain_set_other.
      * rewrite bucket_at_array_set_other by (assumption || apply Hr).
        reflexivity.
Qed.

Lemma refill_spec set_ :
  set_ok set_ ->
  forall es st r,
    wf st -> refill set_ es (Some (Return st)) = Some r ->
    exists st',
      r = Return st' /\ wf st' /\ loadFactor st' = loadFactor st /\
      (forall k, get st' k =
                 match chain_get (rev es) k with
                 | Some v => Some v
                 | None => get st k
                 end).
Proof.
  intros Hok; induction es as [|n es IH]; intros st r Hwf H.
  - simpl in H. inversion H; subst. exists st.
    split; [reflexivity|split; [assumption|split; [reflexivity|]]].
    intros k; reflexivity.
  - rewrite refill_cons in H. simpl bind_fuel in H.
    destruct (set_ st (key n) (value n)) as [r1|] eqn:E;
      [|rewrite refill_none in H; discriminate].
    destruct (Hok _ _ _ _ Hwf E) as (st1 & -> & Hwf1 & Hlf1 & Hk & Hother).
    destruct (IH _ _ Hwf1 H) as (st' & -> & Hwf' & Hlf' & Hget).
    exists st'. split; [reflexivity|split; [assumption|split; [congruence|]]].
    intros k. rewrite Hget. simpl rev. rewrite chain_get_app.
    destruct (chain_get (rev es) k); [reflexivity|]. simpl.
    destruct (jsstring_eqb (key n) k) eqn:Ek.
    + apply jsstring_eqb_eq in Ek. now subst k.
    + apply jsstring_eqb_neq in Ek. apply Hother. congruence.
Qed.

Lemma resize_with_spec set_ (m : HashMap) (cap : Z) r :
  set_ok set_ -> wf m -> 0 < cap ->
  resize_with set_ m cap = Some r ->
  exists m',
    r = Return m' /\ wf m' /\ loadFactor m' = loadFactor m /\
    (forall k, get m' k = get m k).
Proof.
  intros Hok Hwf Hcap H. rewrite resize_with_refill in H.
  apply (refill_spec _ Hok) in H; [|apply (wf_new cap (loadFactor m) Hcap)].
  destruct H as (m' & -> & Hwf' & Hlf & Hget).
  exists m'. split; [reflexivity|split; [assumption|split; [assumption|]]].
  intros k. rewrite Hget, get_entries_rev by assumption.
  destruct (get m k); [reflexivity|].
  unfold get; simpl. now rewrite bucket_at_new_array.
Qed.

Lemma set_fuel_ok (fuel : nat) : set_ok (set_fuel fuel).
Proof.
  induction fuel as [|fuel IH]; intros m k v r Hwf H; [discriminate|].
  simpl in H. destruct (over_threshold m).
  - destruct (resize_with (set_fuel fuel) m (capacity m * 2)) as [r1|] eqn:E;
      [|discriminate].
    apply (resize_with_spec _ _ _ _ IH Hwf) in E; [|destruct Hwf; lia].
    destruct E as (m1 & -> & Hwf1 & Hlf1 & Hget1). simpl in H.
    destruct (set_store_spec m1 k v Hwf1)
      as (m' & E' & Hwf' & Hlf' & _ & _ & Hk & Hother).
    exists m'.
    split; [congruence|split; [assumption|split; [congruence|split]]];
      [assumption|].
    intros k' Hne. rewrite Hother by assumption. apply Hget1.
  - simpl in H.
    destruct (set_store_spec m k v Hwf)
      as (m' & E' & Hwf' & Hlf' & _ & _ & Hk & Hother).
    exists m'.
    split; [congruence|split; [assumption|split; [congruence|split]]];
      assumption.
Qed.

(** [set] returns on a well-formed map, keeps it well-formed, binds [k] to
    [v] and leaves the other keys as they were. *)
Lemma set_spec (m : HashMap) (k : jsstring) (v : V) :
  wf m ->
  exists m',
    set m k v = Return m' /\ wf m' /\ loadFactor m' = loadFactor m /\
    get m' k = Some v /\
    (forall k', k' <> k -> get m' k' = get m k').
Proof.
  intros Hwf.
  apply (set_fuel_ok (S (count m)) m k v (set m k v) Hwf).
  apply set_fuel_enough. lia.
Qed.

Lemma refill_total_set_each (es : list Node) (acc : completion HashMap) :
  refill (fun st k v => Some (set st k v)) es (Some acc) =
  Some (set_each acc es).
Proof.
  revert acc; induction es as [|n es IH]; intros acc; [reflexivity|].
  rewrite refill_cons, set_each_cons.
  destruct acc as [st|msg st]; simpl; apply IH.
Qed.

Lemma set_total_ok : set_ok (fun st k v => Some (set st k v)).
Proof.
  intros m k v r Hwf H. inversion H; subst. now apply set_spec.
Qed.

(** A run of [set] calls: every key reads the value of its last [set]. *)
Lemma set_all_spec (m : HashMap) (kvs : list Node) :
  wf m ->
  exists m',
    set_all m kvs = Return m' /\ wf m' /\ loadFactor m' = loadFactor m /\
    (forall k, get m' k =
               match chain_get (rev kvs) k with
               | Some v => Some v
               | None => get m k
               end).
Proof.
  intros Hwf.
  destruct (refill_spec _ set_total_ok kvs m (set_all m kvs) Hwf
              (refill_total_set_each kvs (Return m)))
    as (m' & E & H).
  exists m'. split; assumption.
Qed.

(** [resize] to a positive capacity returns a well-formed map on which
    [get] answers as before. *)
Lemma resize_spec (m : HashMap) (cap : Z) :
  wf m -> 0 < cap ->
  exists m',
    resize m cap = Return m' /\ wf m' /\ loadFactor m' = loadFactor m /\
    (forall k, get m' k = get m k).
Proof.
  intros Hwf Hcap.
  apply (resize_with_spec (fun st k v => Some (set st k v)) m cap
           (resize m cap) set_total_ok Hwf Hcap).
  rewrite resize_with_refill, refill_total_set_each, resize_eq.
  reflexivity.
Qed.

(** ** [remove] and [clear] *)

Lemma chain_remove_has (c : list Node) (k : jsstring) :
  chain_has c k =
  match chain_remove c k with Some _ => true | None => false end.
Proof.
  induction c as [|n c IH]; simpl; auto.
  destruct (jsstring_eqb (key n) k); auto.
  rewrite IH. destruct (chain_remove c k); reflexivity.
Qed.

(** A successful [chain_remove] unlinks the first node whose key is [k]. *)
Lemma chain_remove_Some (c c' : list Node) (k : jsstring) :
  chain_remove c k = Some c' ->
  exists l1 n l2,
    c = l1 ++ n :: l2 /\ key n = k /\ ~ In k (List.map key l1) /\
    c' = l1 ++ l2.
Proof.
  revert c'; induction c as [|n0 c IH]; simpl; intros c' H; [discriminate|].
  destruct (jsstring_eqb (key n0) k) eqn:E.
  - apply jsstring_eqb_eq in E. inversion H; subst.
    exists [], n0, c'. simpl. tauto.
  - apply jsstring_eqb_neq in E.
    destruct (chain_remove c k) as [c1|]; [|discriminate].
    simpl in H. inversion H; subst.
    destruct (IH c1 eq_refl) as (l1 & n & l2 & -> & Hk & Hnot & ->).
    exists (n0 :: l1), n, l2. simpl. repeat split; auto.
    intros [H1|H1]; auto.
Qed.

Lemma NoDup_keys_unlink (l1 l2 : list Node) (n : Node) :
  NoDup (List.map key (l1 ++ n :: l2)) ->
  NoDup (List.map key (l1 ++ l2)) /\ ~ In (key n) (List.map key (l1 ++ l2)).
Proof.
  rewrite !map_app. simpl. intros H. split.
  - now apply NoDup_remove_1 in H.
  - now apply NoDup_remove_2 in H.
Qed.

Lemma chain_get_unlink (l1 l2 : list Node) (n : Node) (k' : jsstring) :
  k' <> key n -> chain_get (l1 ++ n :: l2) k' = chain_get (l1 ++ l2) k'.
Proof.
  intros Hne. rewrite !chain_get_app. simpl.
  replace (jsstring_eqb (key n) k') with false; auto.
  symmetry. apply jsstring_eqb_neq. congruence.
Qed.

Lemma remove_absent (m : HashMap) (k : jsstring) :
  has m k = false -> remove m k = (false, m).
Proof.
  unfold has, remove. rewrite chain_remove_has.
  destruct (chain_remove (bucket_at (buckets m) (hash m k)) k);
    [discriminate|reflexivity].
Qed.

Lemma remove_present (m : HashMap) (k : jsstring) :
  has m k = true ->
  exists l1 n l2,
    bucket_at (buckets m) (hash m k) = l1 ++ n :: l2 /\
    key n = k /\ ~ In k (List.map key l1) /\
    remove m k =
    (true, {| loadFactor := loadFactor m; capacity := capacity m;
              buckets := array_set (buckets m) (Z.to_nat (hash m k))
                           (l1 ++ l2);
              size := size m - 1 |}).
Proof.
  unfold has, remove. rewrite chain_remove_has.
  destruct (chain_remove (bucket_at (buckets m) (hash m k)) k) as [c'|] eqn:E;
    [|discriminate].
  intros _. destruct (chain_remove_Some _ _ _ E) as (l1 & n & l2 & H1 & H2 & H3 & ->).
  exists l1, n, l2. auto.
Qed.

Lemma wf_unlink (m : HashMap) (k : jsstring) (l1 l2 : list Node) (n : Node) :
  wf m -> bucket_at (buckets m) (hash m k) = l1 ++ n :: l2 -> key n = k ->
  let m' := {| loadFactor := loadFactor m; capacity := capacity m;
               buckets := array_set (buckets m) (Z.to_nat (hash m k))
                            (l1 ++ l2);
               size := size m - 1 |} in
  wf m' /\ has m' k = false /\
  (forall k', k' <> k -> get m' k' = get m k').
Proof.
  intros Hwf Hb Hk m'. pose proof (wf_in_range m k Hwf) as Hr.
  destruct Hwf as (Hcap & Hlen & Hhash & Hnd).
  pose proof (Hnd (hash m k)) as Hnd0. rewrite Hb in Hnd0.
  apply NoDup_keys_unlink in Hnd0 as (Hnd1 & Hnot). rewrite Hk in Hnot.
  split; [|split].
  - unfold wf, m', hash; simpl. rewrite array_set_length.
    split; [assumption|split; [assumption|split]].
    + intros i n' Hin.
      destruct (Z.eq_dec (hash_loop (capacity m) k 0) i) as [E|E].
      * subst i. rewrite bucket_at_array_set_same in Hin by assumption.
        apply (Hhash (hash m k) n'). rewrite Hb.
        rewrite in_app_iff in *. simpl. tauto.
      * rewrite bucket_at_array_set_other in Hin by (assumption || apply Hr).
        now apply Hhash in Hin.
    + intros i.
      destruct (Z.eq_dec (hash_loop (capacity m) k 0) i) as [E|E].
      * subst i. now rewrite bucket_at_array_set_same by assumption.
      * rewrite bucket_at_array_set_other by (assumption || apply Hr).
        apply Hnd.
  - unfold has, m', hash; simpl. fold (hash m k).
    rewrite bucket_at_array_set_same by assumption.
    destruct (chain_has (l1 ++ l2) k) eqn:E; auto.
    apply chain_has_In in E. contradiction.
  - intros k' Hne. unfold get, m', hash; simpl. fold (hash m k) (hash m k').
    destruct (Z.eq_dec (hash m k) (hash m k')) as [E|E].
    + rewrite <- E, bucket_at_array_set_same, Hb by assumption.
      symmetry. apply chain_get_unlink. congruence.
    + now rewrite bucket_at_array_set_other by (assumption || apply Hr).
Qed.

Lemma wf_remove (m : HashMap) (k : jsstring) : wf m -> wf (snd (remove m k)).
Proof.
  intros Hwf. destruct (has m k) eqn:E.
  - destruct (remove_present m k E) as (l1 & n & l2 & Hb & Hk & _ & ->).
    apply (wf_unlink m k l1 l2 n Hwf Hb Hk).
  - now rewrite remove_absent.
Qed.

Lemma wf_clear (m : HashMap) : wf m -> wf (clear m).
Proof.
  intros (Hcap & _). apply (wf_new (capacity m) (loadFactor m) Hcap).
Qed.

(** Every reachable state satisfies the invariant. *)
Lemma reachable_wf (m : HashMap) : reachable m -> wf m.
Proof.
  induction 1 as [cap lf Hcap|m m' k v _ IH E|m k _ IH|m _ IH|m m' cap _ IH Hcap E].
  - now apply wf_new.
  - destruct (set_spec m k v IH) as (m1 & E1 & Hwf & _). congruence.
  - now apply wf_remove.
  - now apply wf_clear.
  - destruct (resize_spec m cap IH Hcap) as (m1 & E1 & Hwf & _). congruence.
Qed.

(** ** The load-factor check *)

Lemma over_at_mono (lf : Q) (cap s s' : Z) :
  0 < cap -> s <= s' -> over_at lf cap s' = false -> over_at lf cap s = false.
Proof.
  unfold over_at. intros Hcap Hle H.
  apply negb_false_iff in H. apply negb_false_iff.
  apply Qle_bool_iff in H. apply Qle_bool_iff.
  eapply Qle_trans; [|exact H]. unfold Qdiv.
  apply Qmult_le_compat_r.
  - now rewrite <- Zle_Qle.
  - apply Qinv_le_0_compat. replace 0%Q with (inject_Z 0) by reflexivity.
    rewrite <- Zle_Qle. lia.
Qed.

Lemma set_not_over (m : HashMap) (k : jsstring) (v : V) :
  over_threshold m = false -> set m k v = set_store m k v.
Proof. intros H. rewrite set_eq, H. reflexivity. Qed.

(** A run of [set] calls that never meets the threshold: no resize, and the
    size grows by one per call, whatever the keys. *)
Lemma set_all_no_resize (kvs : list Node) :
  forall m,
    wf m ->
    (forall s, size m <= s < size m + Z.of_nat (List.length kvs) ->
               over_at (loadFactor m) (capacity m) s = false) ->
    exists m',
      set_all m kvs = Return m' /\ wf m' /\
      loadFactor m' = loadFactor m /\ capacity m' = capacity m /\
      size m' = size m + Z.of_nat (List.length kvs).
Proof.
  induction kvs as [|n kvs IH]; intros m Hwf Hover.
  - exists m. simpl List.length.
    split; [reflexivity|split; [assumption|split; [reflexivity|split]]];
      [reflexivity|lia].
  - unfold set_all. rewrite set_each_cons. simpl bind.
    rewrite set_not_over by (apply Hover; simpl List.length; lia).
    destruct (set_store_spec m (key n) (value n) Hwf)
      as (m1 & -> & Hwf1 & Hlf1 & Hcap1 & Hsz1 & _).
    destruct (IH m1 Hwf1) as (m' & E & Hwf' & Hlf' & Hcap' & Hsz').
    { intros s Hs. rewrite Hlf1, Hcap1. apply Hover.
      simpl List.length. lia. }
    exists m'. split; [exact E|]. split; [assumption|].
    simpl List.length.
    split; [congruence|split; [congruence|]]. lia.
Qed.

Lemma set_all_count (m : HashMap) (kvs : list Node) :
  (count (state_of (set_all m kvs)) <= count m + List.length kvs)%nat.
Proof.
  apply (refill_count (fun st k v => Some (set st k v))) with (r0 := Return m).
  - intros st k v r H. inversion H; subst. apply set_count.
  - apply refill_total_set_each.
Qed.

(** ** The bounds check of [set] *)

Lemma set_store_shaped (m : HashMap) (k : jsstring) (v : V) :
  shaped m -> exists m', set_store m k v = Return m' /\ shaped m'.
Proof.
  intros (Hcap & Hlen).
  rewrite set_store_in_range by (rewrite Hlen; now apply hash_range).
  eexists; split; [reflexivity|].
  unfold shaped; simpl. rewrite array_set_length. auto.
Qed.

Lemma refill_shaped set_ :
  (forall m k v r, shaped m -> set_ m k v = Some r ->
                   exists m', r = Return m' /\ shaped m') ->
  forall es st r,
    shaped st -> refill set_ es (Some (Return st)) = Some r ->
    exists st', r = Return st' /\ shaped st'.
Proof.
  intros Hset; induction es as [|n es IH]; intros st r Hs H.
  - simpl in H. inversion H; subst. eauto.
  - rewrite refill_cons in H. simpl bind_fuel in H.
    destruct (set_ st (key n) (value n)) as [r1|] eqn:E;
      [|rewrite refill_none in H; discriminate].
    destruct (Hset _ _ _ _ Hs E) as (st1 & -> & Hs1). eauto.
Qed.

Lemma set_fuel_shaped (fuel : nat) :
  forall m k v r, shaped m -> set_fuel fuel m k v = Some r ->
                  exists m', r = Return m' /\ shaped m'.
Proof.
  induction fuel as [|fuel IH]; intros m k v r Hs H; [discriminate|].
  simpl in H. destruct (over_threshold m).
  - destruct (resize_with (set_fuel fuel) m (capacity m * 2)) as [r1|] eqn:E;
      [|discriminate].
    rewrite resize_with_refill in E.
    apply (refill_shaped _ IH) in E.
    + destruct E as (m1 & -> & Hs1). simpl in H.
      destruct (set_store_shaped m1 k v Hs1) as (m' & E' & Hs').
      exists m'. split; [congruence|assumption].
    + destruct Hs as (Hcap & _). unfold shaped; simpl.
      rewrite new_array_length. lia.
  - simpl in H. destruct (set_store_shaped m k v Hs) as (m' & E' & Hs').
    exists m'. split; [congruence|assumption].
Qed.

Lemma set_shaped (m : HashMap) (k : jsstring) (v : V) :
  shaped m -> exists m', set m k v = Return m' /\ shaped m'.
Proof.
  intros Hs. apply (set_fuel_shaped (S (count m)) m k v (set m k v) Hs).
  apply set_fuel_enough. lia.
Qed.

Lemma hash_loop_fold (cap : Z) (k : jsstring) (h : Z) :
  hash_loop cap k h =
  fold_left (fun index characterCode =>
               (31 * index + Z.of_N characterCode) mod cap) k h.
Proof. revert h; induction k as [|c k IH]; intros h; simpl; auto. Qed.

(** ** Overwriting an existing key *)

Lemma chain_set_length_present (c : list Node) (k : jsstring) (v : V) :
  chain_has c k = true -> List.length (chain_set c k v) = List.length c.
Proof.
  intros H. rewrite <- (length_map key), chain_set_keys, H.
  apply length_map.
Qed.

Lemma map_keys_array_set (arr : list (list Node)) (i : nat) (c : list Node) :
  List.map key c = List.map key (nth i arr []) ->
  List.map (List.map key) (array_set arr i c) = List.map (List.map key) arr.
Proof.
  revert i; induction arr as [|c0 arr IH]; intros [|i]; simpl; intros H; auto.
  - now rewrite H.
  - now rewrite IH.
Qed.

(** [set] on a key that is present (and below the threshold) keeps the
    chains as long as they were and their keys in place, stores the new
    value, and adds one to [size] all the same. *)
Lemma set_present_size (m : HashMap) (k : jsstring) (v : V) :
  wf m -> over_threshold m = false -> has m k = true ->
  exists m',
    set m k v = Return m' /\ get m' k = Some v /\
    List.map (List.map key) (buckets m') = List.map (List.map key) (buckets m) /\
    count m' = count m /\
    size m' = size m + 1.
Proof.
  intros Hwf Hover Hhas. pose proof (wf_in_range m k Hwf) as Hr.
  rewrite set_not_over by assumption.
  destruct (set_store_spec m k v Hwf) as (m' & E & _ & _ & _ & Hsz & Hget & _).
  exists m'. split; [assumption|split; [assumption|]].
  rewrite set_store_in_range in E by assumption. inversion E; subst m'.
  cbn [buckets size]. unfold has in Hhas. split; [|split; [|reflexivity]].
  - apply map_keys_array_set. rewrite <- bucket_at_nth by lia.
    now rewrite chain_set_keys, Hhas.
  - unfold count, entries; cbn [buckets].
    pose proof (concat_array_set_length (buckets m) (Z.to_nat (hash m k))
                  (chain_set (bucket_at (buckets m) (hash m k)) k v)
                  ltac:(lia)) as L.
    rewrite chain_set_length_present in L by assumption.
    rewrite bucket_at_nth in L |- * by lia. lia.
Qed.

Lemma resize_shaped (m : HashMap) (cap : Z) :
  0 < cap -> exists m', resize m cap = Return m' /\ shaped m'.
Proof.
  intros Hcap. rewrite resize_eq. unfold set_all.
  apply (refill_shaped (fun st k v => Some (set st k v))) with (es := entries m)
    (st := {| loadFactor := loadFactor m; capacity := cap;
              buckets := new_array cap; size := 0 |}).
  - intros st k v r Hs H. inversion H; subst. now apply set_shaped.
  - unfold shaped; simpl. rewrite new_array_length. lia.
  - apply refill_total_set_each.
Qed.

(** ** What the claims that fail still get right *)

(** After any run of [set] calls on a fresh map, [get] returns for every
    key the value of its last [set]. *)
Lemma sets_then_get_last (initialSize : Z) (lf : Q) (kvs : list Node) :
  0 < initialSize ->
  exists m', set_all (new initialSize lf) kvs = Return m' /\
             forall k, get m' k = chain_get (rev kvs) k.
Proof.
  intros Hcap.
  destruct (set_all_spec (new initialSize lf) kvs (wf_new _ _ Hcap))
    as (m' & E & _ & _ & Hget).
  exists m'. split; [assumption|]. intros k. rewrite Hget.
  destruct (chain_get (rev kvs) k); [reflexivity|].
  unfold get, new; simpl. now rewrite bucket_at_new_array.
Qed.

(** [resize] changes no answer of [get] or [has]. *)
Lemma resize_reads (m : HashMap) (cap : Z) :
  wf m -> 0 < cap ->
  exists m', resize m cap = Return m' /\
             forall k, get m' k = get m k /\ has m' k = has m k.
Proof.
  intros Hwf Hcap.
  destruct (resize_spec m cap Hwf Hcap) as (m' & E & _ & _ & Hget).
  exists m'. split; [assumption|]. intros k.
  split; [apply Hget|]. now rewrite !has_get, Hget.
Qed.


(** * The claims *)

(** C7: for every key and every positive capacity, [hash] is the left fold
    from 0 of [index = (31 * index + characterCode) mod capacity] over the
    characters of the key, and lies in [0, capacity); hence on a map whose
    bucket array has [capacity] slots [set] returns, here and in the calls
    that [resize] makes, without taking the out-of-bounds branch. *)
Theorem hash_is_fold_in_range_set_returns (cap : Z) (k : jsstring)
  (Hcap : 0 < cap) :
  (forall m, capacity m = cap ->
             hash m k = hash_fold cap k /\ 0 <= hash m k < cap) /\
  (forall m v, capacity m = cap ->
               Z.of_nat (List.length (buckets m)) = cap ->
               exists m', set m k v = Return m') /\
  (forall m, exists m', resize m cap = Return m').
Proof.
  split; [|split].
  - intros m <-. split.
    + apply hash_loop_fold.
    + now apply hash_range.
  - intros m v <- Hlen.
    destruct (set_shaped m k v (conj Hcap Hlen)) as (m' & E & _). eauto.
  - intros m. destruct (resize_shaped m cap Hcap) as (m' & E & _). eauto.
Qed.

(** C8: on a well-formed map, [remove(k)] leaves the capacity as it is;
    when [k] is present it returns true, unlinks the node of key [k] from
    its chain (the head of the bucket when nothing precedes it) and takes
    one from [size], after which a second [remove(k)] returns false and
    changes nothing, [length()] included; when [k] is absent it returns
    false and the state is the one before. *)
Theorem remove_present_then_absent (m : HashMap) (k : jsstring)
  (Hwf : wf m) :
  capacity (snd (remove m k)) = capacity m /\
  (has m k = true ->
   exists l1 n l2,
     bucket_at (buckets m) (hash m k) = l1 ++ n :: l2 /\
     key n = k /\ ~ In k (List.map key l1) /\
     remove m k =
     (true, {| loadFactor := loadFactor m; capacity := capacity m;
               buckets := array_set (buckets m) (Z.to_nat (hash m k))
                            (l1 ++ l2);
               size := size m - 1 |}) /\
     remove (snd (remove m k)) k = (false, snd (remove m k)) /\
     length (snd (remove (snd (remove m k)) k)) = length (snd (remove m k)))
  /\
  (has m k = false -> remove m k = (false, m)).
Proof.
  split; [|split].
  - destruct (has m k) eqn:E.
    + destruct (remove_present m k E) as (l1 & n & l2 & _ & _ & _ & ->).
      reflexivity.
    + now rewrite remove_absent.
  - intros E.
    destruct (remove_present m k E) as (l1 & n & l2 & Hb & Hk & Hnot & R).
    exists l1, n, l2. rewrite R. cbn [snd].
    destruct (wf_unlink m k l1 l2 n Hwf Hb Hk) as (_ & Hhas & _).
    cbv zeta in Hhas. rewrite (remove_absent _ _ Hhas). cbn [snd]. auto 10.
  - apply remove_absent.
Qed.

(** C9: [clear()] puts [capacity] empty slots in place of the bucket array
    and 0 in [size], with [capacity] and [loadFactor] as before; then [get]
    finds no key, [has] is false for every key and [length()] is 0. *)
Theorem clear_empties (m : HashMap) :
  buckets (clear m) = repeat [] (Z.to_nat (capacity m)) /\
  size (clear m) = 0 /\
  capacity (clear m) = capacity m /\
  loadFactor (clear m) = loadFactor m /\
  (forall k, get (clear m) k = None /\ has (clear m) k = false) /\
  length (clear m) = 0.
Proof.
  repeat (split; [reflexivity|]). split; [|reflexivity].
  intros k. unfold get, has, clear; simpl.
  now rewrite bucket_at_new_array.
Qed.

(** C10: the empty string hashes to 0 whatever the capacity, and on a
    well-formed map [set("", v)] returns, leaves a node of key [""] and
    value [v] in bucket 0, and then [get("")] is [v] and [has("")] is
    true. *)
Theorem empty_key_in_bucket_0 (m : HashMap) (v : V) (Hwf : wf m) :
  (forall m0, hash m0 (str "") = 0) /\
  exists m',
    set m (str "") v = Return m' /\
    In (mkNode (str "") v) (bucket_at (buckets m') 0) /\
    get m' (str "") = Some v /\
    has m' (str "") = true.
Proof.
  split; [reflexivity|].
  destruct (set_spec m (str "") v Hwf) as (m' & E & _ & _ & Hget & _).
  exists m'. split; [assumption|]. split; [|split; [assumption|]].
  - apply chain_get_In. exact Hget.
  - now rewrite has_get, Hget.
Qed.

Lemma get_last_NoDup (kvs : list Node) (n : Node) :
  NoDup (List.map key kvs) -> In n kvs ->
  chain_get (rev kvs) (key n) = Some (value n).
Proof.
  intros Hnd Hin. apply chain_get_NoDup.
  - rewrite map_rev. now apply NoDup_rev.
  - now apply in_rev in Hin.
Qed.

(** C5, as the code has it: 13 distinct keys set on a map constructed with
    capacity 16 and load factor 0.75 trigger no resize, since the check
    comes before the insertion and 12/16 is not above 0.75: after each of
    the 13 calls the capacity is 16.  The next [set] of a further key finds
    13/16 above the threshold and resizes once, to capacity 32.  After the
    13th call and after the 14th, [get] returns the stored value of every
    key set so far. *)
Theorem thirteen_sets_keep_capacity_16 (kvs : list Node) (n14 : Node)
  (Hlen : List.length kvs = 13%nat)
  (Hdistinct : NoDup (List.map key (kvs ++ [n14]))) :
  (forall j, (j <= 13)%nat ->
     exists mj, set_all (new 16 (3 # 4)) (firstn j kvs) = Return mj /\
                capacity mj = 16 /\ size mj = Z.of_nat j) /\
  exists m13 mr m14,
    set_all (new 16 (3 # 4)) kvs = Return m13 /\
    capacity m13 = 16 /\
    (forall n, In n kvs -> get m13 (key n) = Some (value n)) /\
    over_threshold m13 = true /\
    resize m13 32 = Return mr /\ capacity mr = 32 /\
    set_store mr (key n14) (value n14) = Return m14 /\
    set m13 (key n14) (value n14) = Return m14 /\
    capacity m14 = 32 /\
    (forall n, In n (kvs ++ [n14]) -> get m14 (key n) = Some (value n)).
Proof.
  assert (Hwf0 : wf (new 16 (3 # 4))) by (apply wf_new; lia).
  assert (Hbelow : forall es : list Node, (List.length es <= 13)%nat ->
            forall s, size (new 16 (3 # 4)) <= s
                      < size (new 16 (3 # 4)) + Z.of_nat (List.length es) ->
            over_at (loadFactor (new 16 (3 # 4)))
                    (capacity (new 16 (3 # 4))) s = false).
  { intros es Hes s Hs. simpl in *.
    apply (over_at_mono _ _ s 12); [lia|lia|reflexivity]. }
  rewrite map_app in Hdistinct. simpl in Hdistinct.
  pose proof (NoDup_remove_1 _ _ _ Hdistinct) as Hnd.
  pose proof (NoDup_remove_2 _ _ _ Hdistinct) as Hnew.
  rewrite app_nil_r in Hnd, Hnew.
  split.
  - intros j Hj.
    destruct (set_all_no_resize (firstn j kvs) _ Hwf0)
      as (mj & E & _ & _ & Hcap & Hsz).
    { apply Hbelow. rewrite length_firstn. lia. }
    exists mj. split; [assumption|split; [assumption|]].
    rewrite Hsz, length_firstn, Hlen. simpl. lia.
  - destruct (set_all_no_resize kvs _ Hwf0)
      as (m13 & E13 & Hwf13 & Hlf13 & Hcap13 & Hsz13).
    { apply Hbelow. lia. }
    simpl in Hlf13, Hcap13, Hsz13. rewrite Hlen in Hsz13.
    destruct (set_all_spec _ kvs Hwf0) as (m13' & E13' & _ & _ & Hget13).
    rewrite E13 in E13'. inversion E13' as [E]; subst m13'; clear E13'.
    assert (Hreads : forall n, In n kvs -> get m13 (key n) = Some (value n)).
    { intros n Hin. now rewrite Hget13, get_last_NoDup. }
    assert (Hover : over_threshold m13 = true).
    { unfold over_threshold. rewrite Hlf13, Hcap13, Hsz13. reflexivity. }
    pose proof (set_all_count (new 16 (3 # 4)) kvs) as Hcount.
    rewrite E13 in Hcount. simpl state_of in Hcount.
    unfold new in Hcount at 1. rewrite count_new_array, Hlen in Hcount.
    destruct (set_all_no_resize (entries m13)
                {| loadFactor := loadFactor m13; capacity := 32;
                   buckets := new_array 32; size := 0 |})
      as (mr & Er & Hwfr & _ & Hcapr & _).
    { apply (wf_new 32 (loadFactor m13)). lia. }
    { intros s Hs. simpl in *. rewrite Hlf13.
      apply (over_at_mono _ _ s 12); [lia| |reflexivity].
      unfold count in Hcount. lia. }
    rewrite <- resize_eq in Er. simpl in Hcapr.
    destruct (set_store_spec mr (key n14) (value n14) Hwfr)
      as (m14 & E14 & _ & _ & Hcap14 & _).
    assert (Eset : set m13 (key n14) (value n14) = Return m14).
    { rewrite set_eq, Hover, Hcap13. change (16 * 2) with 32.
      rewrite Er. exact E14. }
    destruct (set_spec m13 (key n14) (value n14) Hwf13)
      as (m14' & Eset' & _ & _ & Hk & Hother).
    rewrite Eset in Eset'. inversion Eset' as [E]; subst m14'; clear Eset'.
    exists m13, mr, m14.
    repeat (split; [assumption || congruence|]).
    intros n Hin. apply in_app_iff in Hin as [Hin|[<-|[]]]; [|assumption].
    rewrite Hother; [now apply Hreads|].
    intros Heq. apply Hnew. rewrite <- Heq. now apply in_map.
Qed.

(** C6, as the code has it: on a well-formed map a second [set(k, v)]
    returns as the first does and changes no answer of [get] or [has]; and
    when the map is not above the load-factor threshold after the first
    call, the second leaves the capacity and the bucket contents as they
    are. *)
Theorem set_twice_reads_as_once (m : HashMap) (k : jsstring) (v : V)
  (Hwf : wf m) :
  exists m1 m2,
    set m k v = Return m1 /\ set m1 k v = Return m2 /\
    (forall k', get m2 k' = get m1 k' /\ has m2 k' = has m1 k') /\
    (over_threshold m1 = false ->
     capacity m2 = capacity m1 /\ buckets m2 = buckets m1).
Proof.
  destruct (set_spec m k v Hwf) as (m1 & E1 & Hwf1 & _ & Hk1 & _).
  destruct (set_spec m1 k v Hwf1) as (m2 & E2 & _ & _ & Hk2 & Hother2).
  exists m1, m2. split; [assumption|split; [assumption|split]].
  - assert (Hget : forall k', get m2 k' = get m1 k').
    { intros k'. destruct (jsstring_eqb k' k) eqn:E.
      - apply jsstring_eqb_eq in E. subst k'. congruence.
      - apply jsstring_eqb_neq in E. now apply Hother2. }
    intros k'. split; [apply Hget|]. now rewrite !has_get, Hget.
  - intros Hover. rewrite set_not_over in E2 by assumption.
    pose proof (wf_in_range m1 k Hwf1) as Hr.
    rewrite set_store_in_range in E2 by assumption.
    inversion E2; subst m2. cbn [capacity buckets].
    split; [reflexivity|].
    unfold get in Hk1. rewrite (chain_set_idem _ _ _ Hk1).
    rewrite bucket_at_nth by lia. apply array_set_nth.
Qed.

(** ** Counting nodes *)

Lemma NoDup_keys_concat (f : jsstring -> Z) (arr : list (list Node)) :
  forall off : nat,
    (forall i n, In n (nth i arr []) -> f (key n) = Z.of_nat (off + i)) ->
    (forall i, NoDup (List.map key (nth i arr []))) ->
    NoDup (List.map key (List.concat arr)).
Proof.
  induction arr as [|c arr IH]; intros off Hf Hnd; simpl; [constructor|].
  rewrite map_app. apply NoDup_app.
  - apply (Hnd 0%nat).
  - apply (IH (S off)).
    + intros i n Hin. rewrite (Hf (S i) n Hin). f_equal. lia.
    + intros i. apply (Hnd (S i)).
  - intros k Hk Hk'.
    apply in_map_iff in Hk as (n & <- & Hn).
    apply in_map_iff in Hk' as (n' & Hkey & Hn').
    apply in_concat in Hn' as (c' & Hc' & Hn').
    destruct (In_nth _ _ [] Hc') as (i & _ & Hi).
    pose proof (Hf 0%nat n Hn) as E.
    pose proof (Hf (S i) n') as E'. simpl in E'. rewrite Hi in E'.
    specialize (E' Hn'). rewrite Hkey in E'. lia.
Qed.

(** On a well-formed map no key is stored twice, chains taken together. *)
Lemma NoDup_keys_entries (m : HashMap) :
  wf m -> NoDup (List.map key (entries m)).
Proof.
  intros (_ & _ & Hhash & Hnd).
  apply (NoDup_keys_concat (fun k => hash m k) (buckets m) 0).
  - intros i n Hin. apply Hhash. rewrite bucket_at_nth by lia.
    now rewrite Nat2Z.id.
  - intros i. specialize (Hnd (Z.of_nat i)).
    rewrite bucket_at_nth in Hnd by lia. now rewrite Nat2Z.id in Hnd.
Qed.

Lemma chain_set_length_cases (c : list Node) (k : jsstring) (v : V) :
  List.length (chain_set c k v) =
  if chain_has c k then List.length c else S (List.length c).
Proof.
  rewrite <- (length_map key), chain_set_keys.
  destruct (chain_has c k).
  - apply length_map.
  - rewrite length_app, length_map. simpl. lia.
Qed.

Lemma set_store_counts (m : HashMap) (k : jsstring) (v : V) :
  wf m ->
  exists m',
    set_store m k v = Return m' /\ capacity m' = capacity m /\
    count m' = (if has m k then count m else S (count m)) /\
    size m' = size m + 1.
Proof.
  intros Hwf. pose proof (wf_in_range m k Hwf) as Hr.
  rewrite set_store_in_range by assumption.
  eexists; split; [reflexivity|]. cbn [capacity size].
  split; [reflexivity|split; [|reflexivity]].
  unfold count, entries, has; cbn [buckets].
  pose proof (concat_array_set_length (buckets m) (Z.to_nat (hash m k))
                (chain_set (bucket_at (buckets m) (hash m k)) k v)
                ltac:(lia)) as L.
  rewrite chain_set_length_cases in L.
  rewrite bucket_at_nth in L |- * by lia.
  destruct (chain_has (nth (Z.to_nat (hash m k)) (buckets m) []) k); lia.
Qed.

Lemma has_new_array (lf : Q) (cap sz : Z) (k : jsstring) :
  has {| loadFactor := lf; capacity := cap; buckets := new_array cap;
         size := sz |} k = false.
Proof. unfold has; simpl. now rewrite bucket_at_new_array. Qed.

Lemma refill_counts set_ :
  set_ok set_ -> set_counts set_ ->
  forall es st r,
    wf st -> size st = Z.of_nat (count st) ->
    NoDup (List.map key es) ->
    (forall n, In n es -> has st (key n) = false) ->
    refill set_ es (Some (Return st)) = Some r ->
    exists st',
      r = Return st' /\ capacity st <= capacity st' /\
      count st' = (count st + List.length es)%nat /\
      size st' = Z.of_nat (count st').
Proof.
  intros Hok Hcounts; induction es as [|n es IH];
    intros st r Hwf Hexact Hnd Hnew H.
  - simpl in H. inversion H; subst. exists st. simpl List.length.
    split; [reflexivity|split; [lia|split; [lia|assumption]]].
  - rewrite refill_cons in H. simpl bind_fuel in H.
    destruct (set_ st (key n) (value n)) as [r1|] eqn:E;
      [|rewrite refill_none in H; discriminate].
    destruct (Hok _ _ _ _ Hwf E) as (st1 & -> & Hwf1 & _ & _ & Hother).
    destruct (Hcounts _ _ _ _ Hwf E) as (st1' & E1 & Hcap1 & Hcount1 & Hsz1).
    inversion E1; subst st1'; clear E1.
    rewrite (Hnew n (or_introl eq_refl)) in Hcount1.
    simpl in Hnd. inversion Hnd as [|? ? Hnotin Hnd']; subst.
    destruct (IH st1 r Hwf1) as (st' & -> & Hcap' & Hcount' & Hsz'); auto.
    + rewrite Hsz1, Hcount1. destruct (over_threshold st); lia.
    + intros n' Hin'. rewrite has_get, Hother.
      * rewrite <- has_get. apply Hnew. now right.
      * intros Heq. apply Hnotin. rewrite <- Heq. now apply in_map.
    + exists st'. simpl List.length.
      split; [reflexivity|split; [lia|split; [lia|assumption]]].
Qed.

Lemma resize_with_counts set_ (m : HashMap) (cap : Z) r :
  set_ok set_ -> set_counts set_ -> wf m -> 0 < cap ->
  resize_with set_ m cap = Some r ->
  exists m',
    r = Return m' /\ cap <= capacity m' /\
    count m' = count m /\ size m' = Z.of_nat (count m').
Proof.
  intros Hok Hcounts Hwf Hcap H. rewrite resize_with_refill in H.
  apply (refill_counts _ Hok Hcounts) in H.
  - destruct H as (m' & -> & Hcap' & Hcount & Hsz).
    rewrite count_new_array in Hcount. exists m'. cbn [capacity] in Hcap'.
    split; [reflexivity|split; [assumption|split; [|assumption]]].
    unfold count in *. lia.
  - apply (wf_new cap (loadFactor m) Hcap).
  - now rewrite count_new_array.
  - now apply NoDup_keys_entries.
  - intros n _. apply has_new_array.
Qed.

Lemma set_fuel_counts (fuel : nat) : set_counts (set_fuel fuel).
Proof.
  induction fuel as [|fuel IH]; intros m k v r Hwf H; [discriminate|].
  simpl in H. destruct (over_threshold m).
  - destruct (resize_with (set_fuel fuel) m (capacity m * 2)) as [r1|] eqn:E;
      [|discriminate].
    assert (Hcap : 0 < capacity m * 2) by (destruct Hwf; lia).
    destruct (resize_with_spec _ _ _ _ (set_fuel_ok fuel) Hwf Hcap E)
      as (m1 & -> & Hwf1 & _ & Hget1).
    destruct (resize_with_counts _ _ _ _ (set_fuel_ok fuel) IH Hwf Hcap E)
      as (m1' & E1 & Hcap1 & Hcount1 & Hsz1).
    inversion E1; subst m1'; clear E1. simpl in H.
    destruct (set_store_counts m1 k v Hwf1) as (m' & E' & Hcap' & Hcount' & Hsz').
    exists m'. split; [congruence|].
    rewrite (has_get m1), Hget1, <- has_get, Hcount1 in Hcount'.
    split; [lia|split; [assumption|lia]].
  - simpl in H.
    destruct (set_store_counts m k v Hwf) as (m' & E' & Hcap' & Hcount' & Hsz').
    exists m'. split; [congruence|split; [lia|split; assumption]].
Qed.

Lemma set_total_counts : set_counts (fun st k v => Some (set st k v)).
Proof.
  intros m k v r Hwf H. inversion H; subst.
  apply (set_fuel_counts (S (count m)) m k v (set m k v) Hwf).
  apply set_fuel_enough. lia.
Qed.

Lemma resize_counts (m : HashMap) (cap : Z) :
  wf m -> 0 < cap ->
  exists m',
    resize m cap = Return m' /\ cap <= capacity m' /\
    count m' = count m /\ size m' = Z.of_nat (count m').
Proof.
  intros Hwf Hcap.
  apply (resize_with_counts (fun st k v => Some (set st k v)) m cap
           (resize m cap) set_total_ok set_total_counts Hwf Hcap).
  rewrite resize_with_refill, refill_total_set_each, resize_eq.
  reflexivity.
Qed.

Lemma count_unlink (arr : list (list Node)) (i : nat) (l1 l2 : list Node)
  (n : Node) :
  (i < List.length arr)%nat -> nth i arr [] = l1 ++ n :: l2 ->
  S (List.length (List.concat (array_set arr i (l1 ++ l2))))
  = List.length (List.concat arr).
Proof.
  intros Hi Hb. pose proof (concat_array_set_length arr i (l1 ++ l2) Hi) as L.
  rewrite Hb, !length_app in L. simpl in L. lia.
Qed.

Lemma remove_counts (m : HashMap) (k : jsstring) :
  wf m ->
  count (snd (remove m k)) = (if has m k then pred (count m) else count m) /\
  size (snd (remove m k)) = (if has m k then size m - 1 else size m) /\
  (has m k = true -> (0 < count m)%nat).
Proof.
  intros Hwf. pose proof (wf_in_range m k Hwf) as Hr.
  destruct (has m k) eqn:E.
  - destruct (remove_present m k E) as (l1 & n & l2 & Hb & _ & _ & ->).
    cbn [snd size]. rewrite bucket_at_nth in Hb by lia.
    pose proof (count_unlink (buckets m) (Z.to_nat (hash m k)) l1 l2 n
                  ltac:(lia) Hb) as L.
    unfold count, entries; cbn [buckets].
    split; [lia|split; [reflexivity|lia]].
  - rewrite remove_absent by assumption. cbn [snd].
    split; [reflexivity|split; [reflexivity|discriminate]].
Qed.

(** In every reachable state [size] is at least the number of nodes. *)
Lemma reachable_count_le_size (m : HashMap) :
  reachable m -> Z.of_nat (count m) <= size m.
Proof.
  induction 1 as [cap lf Hcap|m m' k v Hm IH E|m k Hm IH|m Hm IH
                  |m m' cap Hm IH Hcap E].
  - unfold new. rewrite count_new_array. simpl. lia.
  - apply reachable_wf in Hm.
    destruct (set_total_counts m k v _ Hm eq_refl)
      as (m1 & E1 & _ & Hcount & Hsz).
    rewrite E in E1. inversion E1; subst m1.
    destruct (has m k), (over_threshold m); lia.
  - apply reachable_wf in Hm.
    destruct (remove_counts m k Hm) as (Hc & Hs & Hpos).
    rewrite Hc, Hs. destruct (has m k); [specialize (Hpos eq_refl)|]; lia.
  - unfold clear. rewrite count_new_array. simpl. lia.
  - apply reachable_wf in Hm.
    destruct (resize_counts m cap Hm Hcap) as (m1 & E1 & _ & _ & Hsz).
    rewrite E in E1. inversion E1; subst m1. lia.
Qed.

(** ** More chain and array facts *)

Lemma chain_set_absent (c : list Node) (k : jsstring) (v : V) :
  chain_has c k = false -> chain_set c k v = c ++ [mkNode k v].
Proof.
  induction c as [|n c IH]; simpl; [reflexivity|].
  destruct (jsstring_eqb (key n) k); [discriminate|].
  intros H. now rewrite IH.
Qed.

Lemma chain_remove_appended (c : list Node) (k : jsstring) (v : V) :
  chain_has c k = false -> chain_remove (c ++ [mkNode k v]) k = Some c.
Proof.
  induction c as [|n c IH]; simpl.
  - now rewrite jsstring_eqb_refl.
  - destruct (jsstring_eqb (key n) k); [discriminate|].
    intros H. now rewrite IH.
Qed.

Lemma array_set_twice {A : Type} (arr : list A) (i : nat) (x y : A) :
  array_set (array_set arr i x) i y = array_set arr i y.
Proof.
  revert i; induction arr as [|z arr IH]; intros [|i]; simpl; auto.
  now rewrite IH.
Qed.

Lemma keys_concat (m : HashMap) :
  keys m = List.concat (List.map (List.map key) (buckets m)).
Proof. unfold keys, entries. apply concat_map. Qed.

Lemma chain_push_map {B : Type} (f : Node -> B) (bucket : list Node)
  (acc : list B) :
  chain_push f bucket acc = acc ++ List.map f bucket.
Proof.
  revert acc; induction bucket as [|n next IH]; intros acc; simpl.
  - now rewrite app_nil_r.
  - now rewrite IH, <- app_assoc.
Qed.

Lemma collect_map {B : Type} (f : Node -> B) (arr : list (list Node))
  (acc : list B) :
  fold_left (fun acc bucket => chain_push f bucket acc) arr acc =
  acc ++ List.map f (List.concat arr).
Proof.
  revert acc; induction arr as [|c arr IH]; intros acc; simpl.
  - now rewrite app_nil_r.
  - now rewrite IH, chain_push_map, map_app, app_assoc.
Qed.

Lemma combine_map_map {A B C : Type} (f : A -> B) (g : A -> C) (l : list A) :
  combine (List.map f l) (List.map g l) = List.map (fun x => (f x, g x)) l.
Proof. induction l as [|x l IH]; simpl; [reflexivity|now rewrite IH]. Qed.

Lemma keys_loop_keys (m : HashMap) : keys_loop m = keys m.
Proof. unfold keys_loop, keys, entries. now rewrite collect_map. Qed.

Lemma values_loop_values (m : HashMap) : values_loop m = values m.
Proof. unfold values_loop, values, entries. now rewrite collect_map. Qed.

Lemma entries_loop_entries (m : HashMap) :
  entries_loop m = List.map (fun n => (key n, value n)) (entries m).
Proof. unfold entries_loop, entries. now rewrite collect_map. Qed.

(** * Further properties of the code *)

(** X1: on a well-formed map [set(k, v)] returns and keeps the map
    well-formed and its load factor; afterwards [get(k)] is [v] and
    [has(k)] is true, and [get] and [has] answer for every other key as
    they did before. *)
Theorem set_then_get (m : HashMap) (k : jsstring) (v : V) (Hwf : wf m) :
  exists m',
    set m k v = Return m' /\ wf m' /\ loadFactor m' = loadFactor m /\
    get m' k = Some v /\ has m' k = true /\
    (forall k', k' <> k -> get m' k' = get m k' /\ has m' k' = has m k').
Proof.
  destruct (set_spec m k v Hwf) as (m' & E & Hwf' & Hlf & Hk & Hother).
  exists m'. split; [assumption|split; [assumption|split; [assumption|]]].
  split; [assumption|split].
  - now rewrite has_get, Hk.
  - intros k' Hne. split; [now apply Hother|].
    now rewrite !has_get, Hother.
Qed.


(** X3: every state reached from a map constructed with a positive
    capacity, by [set], [remove], [clear] and [resize] to a positive
    capacity, is well-formed, and its [length()] is at least the number of
    nodes it holds. *)
Theorem reachable_invariant (m : HashMap) (Hreach : reachable m) :
  wf m /\ Z.of_nat (List.length (entries m)) <= length m.
Proof.
  split; [now apply reachable_wf|].
  now apply reachable_count_le_size.
Qed.

(** X4: after [set] calls with pairwise distinct keys on a fresh map of
    positive capacity, whatever resizes happen on the way, [length()] is
    the number of calls, the map holds as many nodes, and [get] returns the
    value set for each key. *)
Theorem distinct_sets_length (initialSize : Z) (lf : Q) (kvs : list Node)
  (Hcap : 0 < initialSize) (Hdistinct : NoDup (List.map key kvs)) :
  exists m',
    set_all (new initialSize lf) kvs = Return m' /\
    length m' = Z.of_nat (List.length kvs) /\
    List.length (entries m') = List.length kvs /\
    (forall n, In n kvs -> get m' (key n) = Some (value n)).
Proof.
  pose proof (wf_new initialSize lf Hcap) as Hwf.
  destruct (refill_counts _ set_total_ok set_total_counts kvs
              (new initialSize lf) (set_all (new initialSize lf) kvs) Hwf)
    as (m' & E & _ & Hcount & Hsz).
  - unfold new. now rewrite count_new_array.
  - assumption.
  - intros n _. apply has_new_array.
  - apply refill_total_set_each.
  - unfold new in Hcount. rewrite count_new_array in Hcount.
    simpl in Hcount.
    destruct (sets_then_get_last initialSize lf kvs Hcap) as (m1 & E1 & Hget).
    rewrite E in E1. inversion E1; subst m1.
    exists m'. split; [assumption|]. unfold length.
    split; [congruence|split; [exact Hcount|]].
    intros n Hin. rewrite Hget. now apply get_last_NoDup.
Qed.

(** X5: [resize] of a well-formed map to a positive capacity returns a
    well-formed map with the same load factor and at least that capacity
    (exactly that capacity when the nodes fit under the load factor there),
    holding as many nodes as before, with [length()] equal to that number
    and every answer of [get] and [has] unchanged. *)
Theorem resize_rebuilds (m : HashMap) (cap : Z) (Hwf : wf m)
  (Hcap : 0 < cap) :
  exists m',
    resize m cap = Return m' /\ wf m' /\
    loadFactor m' = loadFactor m /\ cap <= capacity m' /\
    (over_at (loadFactor m) cap (Z.of_nat (count m) - 1) = false ->
     capacity m' = cap) /\
    count m' = count m /\ length m' = Z.of_nat (count m) /\
    (forall k, get m' k = get m k /\ has m' k = has m k).
Proof.
  destruct (resize_spec m cap Hwf Hcap) as (m' & E & Hwf' & Hlf & Hget).
  destruct (resize_counts m cap Hwf Hcap) as (m1 & E1 & Hcap1 & Hcount & Hsz).
  rewrite E in E1. inversion E1; subst m1. exists m'.
  split; [assumption|split; [assumption|split; [assumption|]]].
  split; [assumption|split; [|split; [assumption|split]]].
  - intros Hfit. rewrite resize_eq in E.
    destruct (set_all_no_resize (entries m)
                {| loadFactor := loadFactor m; capacity := cap;
                   buckets := new_array cap; size := 0 |})
      as (m2 & E2 & _ & _ & Hcap2 & _).
    + apply (wf_new cap (loadFactor m) Hcap).
    + intros s Hs. simpl in *.
      apply (over_at_mono _ _ s (Z.of_nat (count m) - 1));
        [assumption| |assumption].
      unfold count. lia.
    + rewrite E in E2. inversion E2; subst m2. exact Hcap2.
  - unfold length. congruence.
  - intros k. split; [apply Hget|]. now rewrite !has_get, Hget.
Qed.

(** X8: on a well-formed map [remove(k)] returns what [has(k)] answered and
    leaves a well-formed map in which [k] is absent, whether or not it was
    there; [get] and [has] answer for every other key as before, and the
    number of nodes goes down by one exactly when [k] was present. *)
Theorem remove_then_reads (m : HashMap) (k : jsstring) (Hwf : wf m) :
  fst (remove m k) = has m k /\
  wf (snd (remove m k)) /\
  has (snd (remove m k)) k = false /\
  get (snd (remove m k)) k = None /\
  (forall k', k' <> k ->
     get (snd (remove m k)) k' = get m k' /\
     has (snd (remove m k)) k' = has m k') /\
  count (snd (remove m k)) = (if has m k then pred (count m) else count m).
Proof.
  assert (Hreads :
            has (snd (remove m k)) k = false /\
            (forall k', k' <> k -> get (snd (remove m k)) k' = get m k')).
  { destruct (has m k) eqn:E.
    - destruct (remove_present m k E) as (l1 & n & l2 & Hb & Hk & _ & ->).
      cbn [snd]. destruct (wf_unlink m k l1 l2 n Hwf Hb Hk) as (_ & H1 & H2).
      split; assumption.
    - rewrite remove_absent by assumption. cbn [snd]. split; auto. }
  destruct Hreads as (Habsent & Hother).
  split; [|split; [now apply wf_remove|split; [assumption|split; [|split]]]].
  - destruct (has m k) eqn:E.
    + now destruct (remove_present m k E) as (l1 & n & l2 & _ & _ & _ & ->).
    + now rewrite remove_absent.
  - rewrite has_get in Habsent.
    now destruct (get (snd (remove m k)) k).
  - intros k' Hne. split; [now apply Hother|].
    now rewrite !has_get, Hother.
  - apply (remove_counts m k Hwf).
Qed.

(** X9: on a well-formed map that is not above the load-factor threshold,
    [set] of an absent key followed by [remove] of that key gives back the
    map as it was: same buckets, same [size], same capacity. *)
Theorem set_then_remove_restores (m : HashMap) (k : jsstring) (v : V)
  (Hwf : wf m) (Hover : over_threshold m = false) (Habsent : has m k = false) :
  exists m1, set m k v = Return m1 /\ remove m1 k = (true, m).
Proof.
  pose proof (wf_in_range m k Hwf) as Hr.
  rewrite set_not_over by assumption.
  rewrite set_store_in_range by assumption.
  eexists; split; [reflexivity|].
  unfold remove, hash; cbn [capacity buckets loadFactor size].
  fold (hash m k).
  rewrite bucket_at_array_set_same by assumption.
  unfold has in Habsent. rewrite (chain_set_absent _ _ _ Habsent).
  rewrite (chain_remove_appended _ _ _ Habsent).
  rewrite array_set_twice, bucket_at_nth, array_set_nth by lia.
  destruct m as [lf cap bs sz]; simpl. do 2 f_equal. lia.
Qed.

(** X10: on a well-formed map that is not above the load-factor threshold,
    [set] of an absent key puts the new node at the tail of the chain of
    its bucket and leaves every other bucket as it was. *)
Theorem set_absent_appends (m : HashMap) (k : jsstring) (v : V)
  (Hwf : wf m) (Hover : over_threshold m = false) (Habsent : has m k = false) :
  exists m',
    set m k v = Return m' /\
    bucket_at (buckets m') (hash m k) =
    bucket_at (buckets m) (hash m k) ++ [mkNode k v] /\
    (forall i, i <> hash m k ->
               bucket_at (buckets m') i = bucket_at (buckets m) i).
Proof.
  pose proof (wf_in_range m k Hwf) as Hr.
  rewrite set_not_over by assumption.
  rewrite set_store_in_range by assumption.
  eexists; split; [reflexivity|]. cbn [buckets]. split.
  - rewrite bucket_at_array_set_same by assumption.
    now apply chain_set_absent.
  - intros i Hne. apply bucket_at_array_set_other; [apply Hr|congruence].
Qed.

(** X11: on a well-formed map that is not above the load-factor threshold,
    [set] of a present key changes neither the order of [keys()] nor the
    number of nodes; the node keeps its place and gets the new value. *)
Theorem set_present_keeps_keys (m : HashMap) (k : jsstring) (v : V)
  (Hwf : wf m) (Hover : over_threshold m = false) (Hpresent : has m k = true) :
  exists m',
    set m k v = Return m' /\ keys_loop m' = keys_loop m /\
    List.length (entries_loop m') = List.length (entries_loop m) /\
    get m' k = Some v.
Proof.
  destruct (set_present_size m k v Hwf Hover Hpresent)
    as (m' & E & Hget & Hkeys & Hcount & _).
  exists m'. split; [assumption|split; [|split; [|assumption]]].
  - now rewrite !keys_loop_keys, !keys_concat, Hkeys.
  - rewrite !entries_loop_entries, !length_map. exact Hcount.
Qed.


(** X13: a freshly constructed map is empty: [get] finds nothing, [has] is
    false and [remove] returns false and changes nothing, for every key;
    [keys()], [values()] and [entries()] are empty and [length()] is 0. *)
Theorem new_is_empty (initialSize : Z) (lf : Q) :
  (forall k, get (new initialSize lf) k = None /\
             has (new initialSize lf) k = false /\
             remove (new initialSize lf) k = (false, new initialSize lf)) /\
  entries_loop (new initialSize lf) = [] /\
  keys_loop (new initialSize lf) = [] /\
  values_loop (new initialSize lf) = [] /\
  length (new initialSize lf) = 0.
Proof.
  assert (E : entries (new initialSize lf) = [])
    by (unfold entries, new; simpl; apply concat_new_array).
  split;
    [|rewrite entries_loop_entries, keys_loop_keys, values_loop_values;
      unfold keys, values; rewrite E; auto].
  intros k.
  assert (H : has (new initialSize lf) k = false) by apply has_new_array.
  split; [|split; [assumption|now apply remove_absent]].
  rewrite has_get in H. now destruct (get (new initialSize lf) k).
Qed.

(** X14: any run of [set] calls on a well-formed map returns; afterwards
    [get] gives, for a key set during the run, the value of its last [set],
    and for any other key what it gave before the run. *)
Theorem sets_last_write_wins (m : HashMap) (kvs : list Node) (Hwf : wf m) :
  exists m',
    set_all m kvs = Return m' /\ wf m' /\
    (forall l1 n l2,
       kvs = l1 ++ n :: l2 -> ~ In (key n) (List.map key l2) ->
       get m' (key n) = Some (value n)) /\
    (forall k, ~ In k (List.map key kvs) -> get m' k = get m k).
Proof.
  destruct (set_all_spec m kvs Hwf) as (m' & E & Hwf' & _ & Hget).
  exists m'. split; [assumption|split; [assumption|split]].
  - intros l1 n l2 -> Hlast. rewrite Hget, rev_app_distr. simpl rev.
    rewrite <- app_assoc, chain_get_app.
    assert (Hnone : chain_get (rev l2) (key n) = None).
    { apply chain_get_None. now rewrite map_rev, <- in_rev. }
    rewrite Hnone. simpl. now rewrite jsstring_eqb_refl.
  - intros k Hk.
    assert (Hnone : chain_get (rev kvs) k = None).
    { apply chain_get_None. now rewrite map_rev, <- in_rev. }
    now rewrite Hget, Hnone.
Qed.

(** X15: the calls between [set] and [resize] end, on any state whatever:
    a [set] on a map of [c] nodes nests at most [c] calls of [resize], so
    the fuel-bounded [set] and [resize] give their result, the one of [set]
    and [resize], with any fuel above the number of nodes; and [set] adds at
    most one node. *)
Theorem set_and_resize_return (fuel : nat) (m : HashMap) (k : jsstring)
  (v : V) (cap : Z) (Hfuel : (count m < fuel)%nat) :
  set_fuel fuel m k v = Some (set m k v) /\
  resize_fuel fuel m cap = Some (resize m cap) /\
  (count (state_of (set m k v)) <= count m + 1)%nat.
Proof.
  split; [now apply set_fuel_enough|split].
  - apply resize_fuel_enough. lia.
  - apply set_count.
Qed.


(** X6: on a well-formed map [keys()] lists no key twice and lists exactly
    the keys for which [has] is true, which are those for which [get] finds
    a value. *)
Theorem keys_are_the_present_keys (m : HashMap) (Hwf : wf m) :
  NoDup (keys_loop m) /\
  (forall k, In k (keys_loop m) <-> has m k = true) /\
  (forall k, has m k = true <-> get m k <> None).
Proof.
  rewrite keys_loop_keys.
  split; [now apply NoDup_keys_entries|split].
  - intros k. unfold keys. rewrite in_map_iff. split.
    + intros (n & <- & Hn). rewrite has_get.
      now rewrite (In_entries_get m n Hwf Hn).
    + intros H. rewrite has_get in H. destruct (get m k) as [v|] eqn:G;
        [|discriminate].
      exists (mkNode k v). split; [reflexivity|now apply get_In_entries].
  - intros k. rewrite has_get. destruct (get m k); split; congruence.
Qed.

(** X7: on a well-formed map [entries()] holds the pair of [k] and [v]
    exactly when [get(k)] is [v], and [values()] lists exactly the values
    that [get] returns for some key. *)
Theorem entries_are_the_bindings (m : HashMap) (Hwf : wf m) :
  (forall k v, In (k, v) (entries_loop m) <-> get m k = Some v) /\
  (forall v, In v (values_loop m) <-> exists k, get m k = Some v).
Proof.
  rewrite entries_loop_entries, values_loop_values. split.
  - intros k v. rewrite in_map_iff. split.
    + intros (n & E & Hn). inversion E; subst.
      now apply In_entries_get.
    + intros G. exists (mkNode k v).
      split; [reflexivity|now apply get_In_entries].
  - intros v. unfold values. rewrite in_map_iff. split.
    + intros (n & <- & Hn). exists (key n). now apply In_entries_get.
    + intros (k & G). exists (mkNode k v).
      split; [reflexivity|now apply get_In_entries].
Qed.

(** X16: [keys()], [values()] and [entries()] agree on every map: the
    three loops visit the same nodes in the same order, so [entries()] is
    [keys()] and [values()] paired position by position, the three arrays
    have one element per stored node, and they list the nodes bucket after
    bucket, each chain from its head. *)
Theorem enumerations_agree (m : HashMap) :
  entries_loop m = combine (keys_loop m) (values_loop m) /\
  List.length (keys_loop m) = List.length (entries_loop m) /\
  List.length (values_loop m) = List.length (entries_loop m) /\
  List.length (entries_loop m) = count m /\
  keys_loop m = List.map key (List.concat (buckets m)) /\
  values_loop m = List.map value (List.concat (buckets m)) /\
  keys_loop m = keys m /\ values_loop m = values m.
Proof.
  unfold keys_loop, values_loop, entries_loop, keys, values, count, entries.
  rewrite !collect_map. simpl. rewrite combine_map_map, !length_map.
  repeat (split; [reflexivity|]). reflexivity.
Qed.


End HashMapModel.

Arguments mkNode {V}.
Arguments key {V}.
Arguments value {V}.
Arguments loadFactor {V}.
Arguments capacity {V}.
Arguments buckets {V}.
Arguments size {V}.
Arguments entries {V}.
Arguments hash {V}.
Arguments set {V}.
Arguments set_store {V}.
Arguments set_all {V}.
Arguments resize {V}.
Arguments get {V}.
Arguments has {V}.
Arguments remove {V}.
Arguments length {V}.
Arguments clear {V}.
Arguments over_threshold {V}.
Arguments bucket_at {V}.
Arguments wf {V}.
Arguments reachable {V}.

(** * The claims on concrete maps

    Values are integers here; ["a"] is the key of one character [a]. *)

(** Running the code on closed inputs. *)
Ltac run := vm_compute; reflexivity.

(** [new HashMap()] then [set("a", 1)]. *)
Definition a_once : HashMap Z :=
  state_of (set (new Z 16 (3 # 4)) (str "a") 1).

(** ... then [set("a", 2)]. *)
Definition a_twice : HashMap Z := state_of (set a_once (str "a") 2).

(** C1, on [new HashMap()]: after [set("a", 1)] the key is present; the
    following [set("a", 2)] overwrites the value in the one node there is
    and adds one to [size], which becomes 2. *)
Theorem set_present_key_adds_to_size :
  set (new Z 16 (3 # 4)) (str "a") 1 = Return a_once /\
  has a_once (str "a") = true /\
  size a_once = 1 /\
  set a_once (str "a") 2 = Return a_twice /\
  entries a_twice = [mkNode (str "a") 2] /\
  size a_twice = 2.
Proof. repeat (split; [run|]); run. Qed.

(** C2: the state after [set("a", 1); set("a", 2)] on [new HashMap()] is
    reachable, holds one entry, and has [size] and [length()] equal to 2. *)
Theorem reachable_size_above_entries :
  reachable a_twice /\
  List.length (entries a_twice) = 1%nat /\
  size a_twice = 2 /\
  length a_twice = 2.
Proof.
  split; [|repeat (split; [run|]); run].
  apply (reach_set Z a_once a_twice (str "a") 2);
    [|run].
  apply (reach_set Z (new Z 16 (3 # 4)) a_once (str "a") 1);
    [|run].
  apply reach_new. lia.
Qed.

(** C3: after [set("a", 1); set("a", 2)] on [new HashMap()], [get("a")] is
    2, the value of the last [set], one distinct key was set, and
    [length()] is 2. *)
Theorem two_sets_one_key_length_2 :
  let kvs := [mkNode (str "a") 1; mkNode (str "a") 2] in
  set_all (new Z 16 (3 # 4)) kvs = Return a_twice /\
  get a_twice (str "a") = Some 2 /\
  List.length (distinct_keys (List.map key kvs)) = 1%nat /\
  length a_twice = 2.
Proof. repeat (split; [run|]); run. Qed.

(** C4: [length()] depends on whether a resize took place.  A call of
    [resize(32)] on the map after [set("a", 1); set("a", 2)] takes
    [length()] from 2 to 1, with [get("a")] and [has("a")] as before; and
    three [set]s of key ["a"] give [length()] 2 on a map of capacity 1 and
    load factor 0.75, which resizes on the way, and 3 on a map of capacity 1
    and load factor 1000, which does not. *)
Theorem resize_changes_length :
  (exists m', resize a_twice 32 = Return m' /\
              get m' (str "a") = get a_twice (str "a") /\
              has m' (str "a") = has a_twice (str "a") /\
              length a_twice = 2 /\ length m' = 1) /\
  (let kvs := [mkNode (str "a") 1; mkNode (str "a") 2; mkNode (str "a") 3] in
   exists m1 m2,
     set_all (new Z 1 (3 # 4)) kvs = Return m1 /\
     set_all (new Z 1 (1000 # 1)) kvs = Return m2 /\
     capacity m1 = 4 /\ capacity m2 = 1 /\
     get m1 (str "a") = get m2 (str "a") /\
     length m1 = 2 /\ length m2 = 3).
Proof.
  split.
  - eexists. repeat (split; [run|]); run.
  - eexists. eexists. repeat (split; [run|]); run.
Qed.

(** The keys ["a"] to ["m"], with the values 1 to 13. *)
Definition thirteen : list (Node Z) :=
  [mkNode (str "a") 1; mkNode (str "b") 2; mkNode (str "c") 3;
   mkNode (str "d") 4; mkNode (str "e") 5; mkNode (str "f") 6;
   mkNode (str "g") 7; mkNode (str "h") 8; mkNode (str "i") 9;
   mkNode (str "j") 10; mkNode (str "k") 11; mkNode (str "l") 12;
   mkNode (str "m") 13].

(** C5 fails as stated: after the keys ["a"] to ["m"] are set on
    [new HashMap(16, 0.75)] the capacity is 16, not 32. *)
Lemma thirteenth_set_does_not_resize :
  (exists m, set_all (new Z 16 (3 # 4)) thirteen = Return m /\
             capacity m = 16 /\ size m = 13) /\
  ~ (exists m, set_all (new Z 16 (3 # 4)) thirteen = Return m /\
               capacity m = 32).
Proof.
  split.
  - eexists. repeat (split; [run|]); run.
  - intros (m & E & Hcap). vm_compute in E. inversion E; subst m.
    vm_compute in Hcap. discriminate.
Qed.

(** C6 fails as stated: on [new HashMap(1)], the second [set("a", 1)] finds
    1/1 above 0.75 and resizes, so the capacity, the size and the buckets
    all differ from those after the first. *)
Lemma set_twice_differs_from_once :
  exists m1 m2,
    set (new Z 1 (3 # 4)) (str "a") 1 = Return m1 /\
    set m1 (str "a") 1 = Return m2 /\
    capacity m1 = 1 /\ capacity m2 = 2 /\
    size m1 = 1 /\ size m2 = 2 /\
    buckets m1 = [[mkNode (str "a") 1]] /\
    buckets m2 = [[]; [mkNode (str "a") 1]] /\
    m2 <> m1.
Proof.
  eexists. eexists. repeat (split; [run|]).
  vm_compute. discriminate.
Qed.

(** ** The theorems with hypotheses, on concrete maps *)

Lemma wf_a_once : wf a_once.
Proof.
  apply reachable_wf.
  apply (reach_set Z (new Z 16 (3 # 4)) a_once (str "a") 1); [|run].
  apply reach_new. lia.
Qed.

Lemma thirteen_sets_keep_capacity_16_witness :
  List.length thirteen = 13%nat /\
  NoDup (List.map key (thirteen ++ [mkNode (str "n") 14])) /\
  ((forall j, (j <= 13)%nat ->
      exists mj, set_all (new Z 16 (3 # 4)) (firstn j thirteen) = Return mj /\
                 capacity mj = 16 /\ size mj = Z.of_nat j) /\
   exists m13 mr m14,
     set_all (new Z 16 (3 # 4)) thirteen = Return m13 /\
     capacity m13 = 16 /\
     (forall n, In n thirteen -> get m13 (key n) = Some (value n)) /\
     over_threshold m13 = true /\
     resize m13 32 = Return mr /\ capacity mr = 32 /\
     set_store mr (str "n") 14 = Return m14 /\
     set m13 (str "n") 14 = Return m14 /\
     capacity m14 = 32 /\
     (forall n, In n (thirteen ++ [mkNode (str "n") 14]) ->
                get m14 (key n) = Some (value n))).
Proof.
  assert (Hdistinct :
            NoDup (List.map key (thirteen ++ [mkNode (str "n") 14]))).
  { repeat (constructor; [vm_compute; intuition discriminate|]).
    constructor. }
  split; [reflexivity|split; [exact Hdistinct|]].
  exact (thirteen_sets_keep_capacity_16 Z thirteen (mkNode (str "n") 14)
           eq_refl Hdistinct).
Defined.

Lemma set_twice_reads_as_once_witness :
  wf (new Z 16 (3 # 4)) /\
  exists m1 m2,
    set (new Z 16 (3 # 4)) (str "a") 1 = Return m1 /\
    set m1 (str "a") 1 = Return m2 /\
    (forall k', get m2 k' = get m1 k' /\ has m2 k' = has m1 k') /\
    (over_threshold m1 = false ->
     capacity m2 = capacity m1 /\ buckets m2 = buckets m1).
Proof.
  assert (Hwf : wf (new Z 16 (3 # 4))) by (apply wf_new; lia).
  split; [exact Hwf|].
  exact (set_twice_reads_as_once Z (new Z 16 (3 # 4)) (str "a") 1 Hwf).
Defined.

Lemma hash_is_fold_in_range_set_returns_witness :
  0 < 16 /\
  (forall m : HashMap Z, capacity m = 16 ->
             hash m (str "a") = hash_fold 16 (str "a") /\
             0 <= hash m (str "a") < 16) /\
  (forall (m : HashMap Z) v, capacity m = 16 ->
               Z.of_nat (List.length (buckets m)) = 16 ->
               exists m', set m (str "a") v = Return m') /\
  (forall m : HashMap Z, exists m', resize m 16 = Return m').
Proof.
  split; [lia|].
  apply (hash_is_fold_in_range_set_returns Z 16 (str "a")). lia.
Defined.

Lemma remove_present_then_absent_witness :
  wf a_once /\
  capacity (snd (remove a_once (str "a"))) = capacity a_once /\
  (has a_once (str "a") = true ->
   exists l1 n l2,
     bucket_at (buckets a_once) (hash a_once (str "a")) = l1 ++ n :: l2 /\
     key n = str "a" /\ ~ In (str "a") (List.map key l1) /\
     remove a_once (str "a") =
     (true, {| loadFactor := loadFactor a_once; capacity := capacity a_once;
               buckets := array_set (buckets a_once)
                            (Z.to_nat (hash a_once (str "a"))) (l1 ++ l2);
               size := size a_once - 1 |}) /\
     remove (snd (remove a_once (str "a"))) (str "a") =
     (false, snd (remove a_once (str "a"))) /\
     length (snd (remove (snd (remove a_once (str "a"))) (str "a"))) =
     length (snd (remove a_once (str "a"))))
  /\
  (has a_once (str "a") = false ->
   remove a_once (str "a") = (false, a_once)).
Proof.
  split; [exact wf_a_once|].
  exact (remove_present_then_absent Z a_once (str "a") wf_a_once).
Defined.

Lemma empty_key_in_bucket_0_witness :
  wf (new Z 16 (3 # 4)) /\
  (forall m0 : HashMap Z, hash m0 (str "") = 0) /\
  exists m',
    set (new Z 16 (3 # 4)) (str "") 7 = Return m' /\
    In (mkNode (str "") 7) (bucket_at (buckets m') 0) /\
    get m' (str "") = Some 7 /\
    has m' (str "") = true.
Proof.
  assert (Hwf : wf (new Z 16 (3 # 4))) by (apply wf_new; lia).
  split; [exact Hwf|].
  exact (empty_key_in_bucket_0 Z (new Z 16 (3 # 4)) 7 Hwf).
Defined.

Arguments count {V}.
Arguments keys {V}.
Arguments values {V}.
Arguments set_fuel {V}.
Arguments resize_fuel {V}.
Arguments keys_loop {V}.
Arguments values_loop {V}.
Arguments entries_loop {V}.

(** ** The further properties, on concrete maps *)

Lemma wf_new_16 : wf (new Z 16 (3 # 4)).
Proof. apply wf_new. lia. Qed.

Lemma reachable_a_once : reachable a_once.
Proof.
  apply (reach_set Z (new Z 16 (3 # 4)) a_once (str "a") 1); [|run].
  apply reach_new. lia.
Qed.

Lemma set_then_get_witness :
  wf (new Z 16 (3 # 4)) /\
  exists m',
    set (new Z 16 (3 # 4)) (str "a") 1 = Return m' /\ wf m' /\
    loadFactor m' = loadFactor (new Z 16 (3 # 4)) /\
    get m' (str "a") = Some 1 /\ has m' (str "a") = true /\
    (forall k', k' <> str "a" ->
                get m' k' = get (new Z 16 (3 # 4)) k' /\
                has m' k' = has (new Z 16 (3 # 4)) k').
Proof.
  split; [exact wf_new_16|].
  exact (set_then_get Z (new Z 16 (3 # 4)) (str "a") 1 wf_new_16).
Defined.


Lemma reachable_invariant_witness :
  reachable a_once /\
  wf a_once /\ Z.of_nat (List.length (entries a_once)) <= length a_once.
Proof.
  split; [exact reachable_a_once|].
  exact (reachable_invariant Z a_once reachable_a_once).
Defined.

Lemma distinct_sets_length_witness :
  0 < 16 /\ NoDup (List.map key thirteen) /\
  exists m',
    set_all (new Z 16 (3 # 4)) thirteen = Return m' /\
    length m' = Z.of_nat (List.length thirteen) /\
    List.length (entries m') = List.length thirteen /\
    (forall n, In n thirteen -> get m' (key n) = Some (value n)).
Proof.
  assert (Hdistinct : NoDup (List.map key thirteen)).
  { repeat (constructor; [vm_compute; intuition discriminate|]).
    constructor. }
  split; [lia|split; [exact Hdistinct|]].
  exact (distinct_sets_length Z 16 (3 # 4) thirteen eq_refl Hdistinct).
Defined.

Lemma resize_rebuilds_witness :
  wf a_once /\ 0 < 32 /\
  exists m',
    resize a_once 32 = Return m' /\ wf m' /\
    loadFactor m' = loadFactor a_once /\ 32 <= capacity m' /\
    (over_at (loadFactor a_once) 32 (Z.of_nat (count a_once) - 1) = false ->
     capacity m' = 32) /\
    count m' = count a_once /\ length m' = Z.of_nat (count a_once) /\
    (forall k, get m' k = get a_once k /\ has m' k = has a_once k).
Proof.
  split; [exact wf_a_once|split; [lia|]].
  exact (resize_rebuilds Z a_once 32 wf_a_once eq_refl).
Defined.

Lemma keys_are_the_present_keys_witness :
  wf a_once /\
  NoDup (keys_loop a_once) /\
  (forall k, In k (keys_loop a_once) <-> has a_once k = true) /\
  (forall k, has a_once k = true <-> get a_once k <> None).
Proof.
  split; [exact wf_a_once|].
  exact (keys_are_the_present_keys Z a_once wf_a_once).
Defined.

Lemma entries_are_the_bindings_witness :
  wf a_once /\
  (forall k v, In (k, v) (entries_loop a_once) <-> get a_once k = Some v) /\
  (forall v, In v (values_loop a_once) <-> exists k, get a_once k = Some v).
Proof.
  split; [exact wf_a_once|].
  exact (entries_are_the_bindings Z a_once wf_a_once).
Defined.

Lemma remove_then_reads_witness :
  wf a_once /\
  fst (remove a_once (str "a")) = has a_once (str "a") /\
  wf (snd (remove a_once (str "a"))) /\
  has (snd (remove a_once (str "a"))) (str "a") = false /\
  get (snd (remove a_once (str "a"))) (str "a") = None /\
  (forall k', k' <> str "a" ->
     get (snd (remove a_once (str "a"))) k' = get a_once k' /\
     has (snd (remove a_once (str "a"))) k' = has a_once k') /\
  count (snd (remove a_once (str "a"))) =
  (if has a_once (str "a") then pred (count a_once) else count a_once).
Proof.
  split; [exact wf_a_once|].
  exact (remove_then_reads Z a_once (str "a") wf_a_once).
Defined.

Lemma set_then_remove_restores_witness :
  wf (new Z 16 (3 # 4)) /\
  over_threshold (new Z 16 (3 # 4)) = false /\
  has (new Z 16 (3 # 4)) (str "a") = false /\
  exists m1,
    set (new Z 16 (3 # 4)) (str "a") 1 = Return m1 /\
    remove m1 (str "a") = (true, new Z 16 (3 # 4)).
Proof.
  split; [exact wf_new_16|split; [reflexivity|split; [reflexivity|]]].
  exact (set_then_remove_restores Z (new Z 16 (3 # 4)) (str "a") 1
           wf_new_16 eq_refl eq_refl).
Defined.

Lemma set_absent_appends_witness :
  wf a_once /\ over_threshold a_once = false /\
  has a_once (str "q") = false /\
  exists m',
    set a_once (str "q") 2 = Return m' /\
    bucket_at (buckets m') (hash a_once (str "q")) =
    bucket_at (buckets a_once) (hash a_once (str "q")) ++ [mkNode (str "q") 2]
    /\
    (forall i, i <> hash a_once (str "q") ->
               bucket_at (buckets m') i = bucket_at (buckets a_once) i).
Proof.
  split; [exact wf_a_once|split; [reflexivity|split; [reflexivity|]]].
  exact (set_absent_appends Z a_once (str "q") 2 wf_a_once eq_refl eq_refl).
Defined.

Lemma set_present_keeps_keys_witness :
  wf a_once /\ over_threshold a_once = false /\
  has a_once (str "a") = true /\
  exists m',
    set a_once (str "a") 2 = Return m' /\
    keys_loop m' = keys_loop a_once /\
    List.length (entries_loop m') = List.length (entries_loop a_once) /\
    get m' (str "a") = Some 2.
Proof.
  split; [exact wf_a_once|split; [reflexivity|split; [reflexivity|]]].
  exact (set_present_keeps_keys Z a_once (str "a") 2 wf_a_once
           eq_refl eq_refl).
Defined.



Lemma sets_last_write_wins_witness :
  wf (new Z 16 (3 # 4)) /\
  exists m',
    set_all (new Z 16 (3 # 4)) [mkNode (str "a") 1; mkNode (str "a") 2]
    = Return m' /\ wf m' /\
    (forall l1 n l2,
       [mkNode (str "a") 1; mkNode (str "a") 2] = l1 ++ n :: l2 ->
       ~ In (key n) (List.map key l2) ->
       get m' (key n) = Some (value n)) /\
    (forall k,
       ~ In k (List.map key [mkNode (str "a") 1; mkNode (str "a") 2]) ->
       get m' k = get (new Z 16 (3 # 4)) k).
Proof.
  split; [exact wf_new_16|].
  exact (sets_last_write_wins Z (new Z 16 (3 # 4))
           [mkNode (str "a") 1; mkNode (str "a") 2] wf_new_16).
Defined.

Lemma set_and_resize_return_witness :
  (count a_once < 5)%nat /\
  set_fuel 5 a_once (str "b") 2 = Some (set a_once (str "b") 2) /\
  resize_fuel 5 a_once 32 = Some (resize a_once 32) /\
  (count (state_of (set a_once (str "b") 2%Z)) <= count a_once + 1)%nat.
Proof.
  assert (Hfuel : (count a_once < 5)%nat) by (vm_compute; lia).
  split; [exact Hfuel|].
  exact (set_and_resize_return Z 5 a_once (str "b") 2 32 Hfuel).
Defined.
